(** * Scale scheduler core: a shallow embedding and its verified properties

    The development embeds four source files of the repository:

    - [scheduler/cleanup/manager.py]   (module [Cleanup])
    - [job/configuration/volume.py]    (module [Volume])
    - [scheduler/threads/schedule.py]  (module [Schedule])
    - [ingest/models.py]               (module [Ingest])

    Python objects that are mutated in place are modelled by explicit state
    passing; a method that may raise returns a [result] next to the state it
    leaves behind.  Part I holds the embedding, Part II the theorems. *)

From Stdlib Require Import ZArith List String Ascii Bool Lia Permutation.
From stdpp Require Import base option list gmap sets strings sorting.

Set Default Proof Using "Type".
Open Scope Z_scope.

(* ===================================================================== *)
(** * Part I - the embedding                                              *)
(* ===================================================================== *)

(** ** Python exceptions and results *)

Module Py.

(** The exception classes the embedded code can raise. *)
Inductive exn : Type :=
| KeyError
| TypeError
| OperationalError
| InvalidDataTypeTag.

#[global] Instance exn_eq_dec : EqDecision exn.
Proof. solve_decision. Defined.

(** What a call produces: a returned value or a raised exception. *)
Inductive result (A : Type) : Type :=
| Ok (a : A)
| Raise (e : exn).

Arguments Ok {A} a.
Arguments Raise {A} e.


(** Python truthiness of an optional object ([None] is falsy). *)
Definition truthy_opt {A} (o : option A) : bool :=
  match o with Some _ => true | None => false end.

End Py.
Import Py.

(** ** scheduler/cleanup/manager.py *)

Module Cleanup.

(** [scheduler.node.node_class.Node]: the two attributes the manager reads. *)
Record Node : Type := { id : Z; agent_id : string }.

(** [job.execution.job_exe.RunningJobExecution], as the manager sees it. *)
Record RunningJobExecution : Type := { exe_id : Z; node_id : Z }.

(** [job.tasks.base_task.Task]: a cleanup task bound to an agent. *)
Record Task : Type := { task_id : string; task_agent_id : string }.

Inductive TaskStatus : Type := RUNNING | FINISHED | FAILED | LOST.

(** [job.tasks.update.TaskStatusUpdate]. *)
Record TaskStatusUpdate : Type :=
  { update_task_id : string; update_agent_id : string; update_status : TaskStatus }.

(** The interface of [scheduler.cleanup.node.NodeCleanup], which the
    manager only calls into.  The class itself is not among the embedded
    sources, so its constructor and methods are operations of an interface;
    [nc_job_exes] observes the queue of executions waiting for cleanup. *)
Class NodeCleanupAPI (NC : Type) : Type := {
  NodeCleanup_init : Node -> NC;
  nc_add_job_execution : RunningJobExecution -> NC -> NC;
  nc_handle_task_timeout : Task -> NC -> NC;
  nc_handle_task_update : TaskStatusUpdate -> NC -> NC;
  nc_job_exes : NC -> list RunningJobExecution
}.

(** The two dictionaries of a [CleanupManager] ([_lock] guards every
    method body and has no sequential content). *)
Record CleanupManager (NC : Type) : Type := {
  _agent_ids : gmap string Z;   (* {Agent ID: Node ID} *)
  _nodes : gmap Z NC            (* {Node ID: NodeCleanup} *)
}.

Arguments _agent_ids {NC} _.
Arguments _nodes {NC} _.

Section Manager.
Context {NC : Type} `{!NodeCleanupAPI NC}.

(** [CleanupManager.__init__] *)
Definition init : CleanupManager NC :=
  {| _agent_ids := ∅; _nodes := ∅ |}.

(** [self._nodes[job_exe.node_id].add_job_execution(job_exe)]: the
    subscript raises [KeyError] on a node id that is not a key. *)
Definition add_job_execution (self : CleanupManager NC) (job_exe : RunningJobExecution)
  : result unit * CleanupManager NC :=
  match _nodes self !! node_id job_exe with
  | None => (Raise KeyError, self)
  | Some node =>
      (Ok tt,
       {| _agent_ids := _agent_ids self;
          _nodes := <[node_id job_exe := nc_add_job_execution job_exe node]> (_nodes self) |})
  end.

(** The body shared by the two callbacks: look the agent up, return at
    once when it is unknown, otherwise hand over to the node's cleanup. *)
Definition dispatch_by_agent (self : CleanupManager NC) (agent : string) (f : NC -> NC)
  : result unit * CleanupManager NC :=
  match _agent_ids self !! agent with
  | None => (Ok tt, self)
  | Some node_id =>
      match _nodes self !! node_id with
      | None => (Raise KeyError, self)
      | Some node =>
          (Ok tt,
           {| _agent_ids := _agent_ids self;
              _nodes := <[node_id := f node]> (_nodes self) |})
      end
  end.

Definition handle_task_timeout (self : CleanupManager NC) (task : Task)
  : result unit * CleanupManager NC :=
  dispatch_by_agent self (task_agent_id task) (nc_handle_task_timeout task).

Definition handle_task_update (self : CleanupManager NC) (task_update : TaskStatusUpdate)
  : result unit * CleanupManager NC :=
  dispatch_by_agent self (update_agent_id task_update) (nc_handle_task_update task_update).

(** One pass of the [for node in nodes] loop of [update_nodes]. *)
Definition update_node (self : CleanupManager NC) (node : Node) : CleanupManager NC :=
  let nodes' :=
    match _nodes self !! id node with
    | None => <[id node := NodeCleanup_init node]> (_nodes self)   (* New node *)
    | Some _ => _nodes self
    end in
  {| _agent_ids := <[agent_id node := id node]> (_agent_ids self); _nodes := nodes' |}.

(** [update_nodes]: the agent map is reset, then rebuilt node by node. *)
Definition update_nodes (self : CleanupManager NC) (nodes : list Node) : CleanupManager NC :=
  foldl update_node {| _agent_ids := ∅; _nodes := _nodes self |} nodes.

End Manager.

(** Modelled from the spec: [scheduler.cleanup.node.NodeCleanup] is not
    among the sources.  The spec gives its state per node as an ordered list
    of executions plus zero or one in-flight cleanup task: a new node starts
    with an empty list, [add_job_execution] appends, a FINISHED update drops
    the in-flight entries, and FAILED, LOST and a timeout put them back at
    the front; RUNNING is ignored. *)
Record ListNodeCleanup : Type := {
  lnc_node : Node;
  lnc_queue : list RunningJobExecution;
  lnc_in_flight : option (string * list RunningJobExecution)
}.

Definition lnc_requeue (tid : string) (nc : ListNodeCleanup) : ListNodeCleanup :=
  match lnc_in_flight nc with
  | Some (t, exes) =>
      if String.eqb t tid
      then {| lnc_node := lnc_node nc; lnc_queue := exes ++ lnc_queue nc; lnc_in_flight := None |}
      else nc
  | None => nc
  end.

Definition lnc_update (u : TaskStatusUpdate) (nc : ListNodeCleanup) : ListNodeCleanup :=
  match update_status u with
  | RUNNING => nc
  | FINISHED =>
      match lnc_in_flight nc with
      | Some (t, _) =>
          if String.eqb t (update_task_id u)
          then {| lnc_node := lnc_node nc; lnc_queue := lnc_queue nc; lnc_in_flight := None |}
          else nc
      | None => nc
      end
  | FAILED | LOST => lnc_requeue (update_task_id u) nc
  end.

#[global] Instance ListNodeCleanup_api : NodeCleanupAPI ListNodeCleanup := {
  NodeCleanup_init node := {| lnc_node := node; lnc_queue := []; lnc_in_flight := None |};
  nc_add_job_execution exe nc :=
    {| lnc_node := lnc_node nc; lnc_queue := lnc_queue nc ++ [exe];
       lnc_in_flight := lnc_in_flight nc |};
  nc_handle_task_timeout task nc := lnc_requeue (task_id task) nc;
  nc_handle_task_update := lnc_update;
  nc_job_exes := lnc_queue
}.

(** *** Vocabulary of the statements and sample managers *)

(** The first node of a snapshot that carries a given node id: the one whose
    [NodeCleanup] is constructed when the id is new. *)
Definition first_with_id (k : Z) (nodes : list Node) : option Node :=
  List.find (fun n => bool_decide (id n = k)) nodes.

(** The (agent id, node id) pairs of a snapshot, in snapshot order. *)
Definition agent_pairs (nodes : list Node) : list (string * Z) :=
  (fun n => (agent_id n, id n)) <$> nodes.

(** A manager that knows node 1 (agent "a1") and nothing else. *)
Definition one_node_manager : CleanupManager ListNodeCleanup :=
  update_nodes init [ {| id := 1; agent_id := "a1" |} ].

(** The same manager once execution 10 waits for cleanup on node 1. *)
Definition busy_manager : CleanupManager ListNodeCleanup :=
  snd (add_job_execution one_node_manager {| exe_id := 10; node_id := 1 |}).

(** A snapshot in which node 1 came back under a new agent id and node 2 is
    new. *)
Definition snapshot : list Node :=
  [ {| id := 1; agent_id := "a1-new" |}; {| id := 2; agent_id := "a2" |} ].

(** *** [get_next_tasks] and sequences of calls *)

(** [NodeCleanup.get_next_task()], the one further method of the absent
    class that the manager calls: a task or [None], and the node's cleanup
    afterwards. *)
Class NodeCleanupNext (NC : Type) : Type := {
  nc_get_next_task : NC -> option Task * NC
}.

(** [get_next_tasks]: every node is asked once, in the order the dictionary
    iterates, and the answers that are not [None] are collected. *)
Definition get_next_tasks {NC : Type} `{!NodeCleanupNext NC} (self : CleanupManager NC)
  : list Task * CleanupManager NC :=
  (omap (fun entry => fst (nc_get_next_task (snd entry))) (map_to_list (_nodes self)),
   {| _agent_ids := _agent_ids self;
      _nodes := (fun node => snd (nc_get_next_task node)) <$> _nodes self |}).

(** Modelled from the spec: the list-based [NodeCleanup] hands out one task
    that drains its whole queue when no cleanup task is in flight and the
    queue is not empty. *)
#[global] Instance ListNodeCleanup_next : NodeCleanupNext ListNodeCleanup := {
  nc_get_next_task nc :=
    match lnc_in_flight nc, lnc_queue nc with
    | None, exe :: rest =>
        (Some {| task_id := "cleanup"; task_agent_id := agent_id (lnc_node nc) |},
         {| lnc_node := lnc_node nc; lnc_queue := [];
            lnc_in_flight := Some ("cleanup", exe :: rest) |})
    | _, _ => (None, nc)
    end
}.

(** A call of one of the five public methods, and the manager it leaves
    (also when the call raised: a raising call changes nothing). *)
Inductive Call : Type :=
| AddJobExecution (job_exe : RunningJobExecution)
| GetNextTasks
| HandleTaskTimeout (task : Task)
| HandleTaskUpdate (task_update : TaskStatusUpdate)
| UpdateNodes (nodes : list Node).

Definition after_call {NC : Type} `{!NodeCleanupAPI NC} `{!NodeCleanupNext NC}
    (self : CleanupManager NC) (c : Call) : CleanupManager NC :=
  match c with
  | AddJobExecution job_exe => snd (add_job_execution self job_exe)
  | GetNextTasks => snd (get_next_tasks self)
  | HandleTaskTimeout task => snd (handle_task_timeout self task)
  | HandleTaskUpdate task_update => snd (handle_task_update self task_update)
  | UpdateNodes nodes => update_nodes self nodes
  end.

Definition after_calls {NC : Type} `{!NodeCleanupAPI NC} `{!NodeCleanupNext NC}
    (self : CleanupManager NC) (cs : list Call) : CleanupManager NC :=
  foldl after_call self cs.

(** Every agent id is mapped to a node id that has a [NodeCleanup]. *)
Definition agents_known {NC : Type} (self : CleanupManager NC) : Prop :=
  forall a n, _agent_ids self !! a = Some n -> is_Some (_nodes self !! n).

End Cleanup.

(** ** job/configuration/volume.py *)

Module Volume.











(** *** Vocabulary of the statements and sample volumes *)






End Volume.

(** ** scheduler/threads/schedule.py *)

Module Schedule.

Definition DELAY : Z := 5.              (* In seconds *)
Definition MAX_NEW_JOB_EXES : Z := 500. (* Maximum number of new job executions per loop *)

(** A Mesos task, opaque to the thread. *)
Record Task : Type := { task_id : string }.

(** [scheduler.node.node_class.Node]: the thread reads [node.id] only. *)
Record Node : Type := { id : Z }.

(** [job.execution.running.job_exe.RunningJobExecution].  [next_task] is
    what this execution's [start_next_task()] hands back when the round calls
    it: a task, or [None]. *)
Record RunningJobExecution : Type :=
  { exe_id : Z; node_id : Z; next_task : option Task }.

Definition start_next_task (exe : RunningJobExecution) : option Task := next_task exe.

(** A row of [queue.models.Queue]. *)
Record Queue : Type := { queue_id : Z; job_type_id : Z }.

(** [queue.job_exe.QueuedJobExecution(queue)]. *)
Record QueuedJobExecution : Type := { queue : Queue }.

(** A job type model; the thread reads [is_paused] only. *)
Record JobType : Type := { is_paused : bool }.

(** [scheduler.offer.node.NodeOffers], as [pop_*] hand them out. *)
Record NodeOffers : Type := {
  node : Node;
  offer_ids : list string;
  get_accepted_running_job_exes : list RunningJobExecution;
  get_accepted_new_job_exes : list QueuedJobExecution
}.

(** The interface of [scheduler.offer.manager.OfferManager]: the class is a
    collaborator the thread calls into, so each method is an operation on an
    abstract manager state. *)
Class OfferManagerAPI (OM : Type) : Type := {
  ACCEPTED : Z;
  update_nodes : list Node -> OM -> OM;
  ready_new_offers : OM -> OM;
  consider_next_task : RunningJobExecution -> OM -> OM;
  consider_new_job_exe : QueuedJobExecution -> OM -> Z * OM;
  pop_offers_with_accepted_job_exes : OM -> list NodeOffers * OM;
  pop_all_offers : OM -> list NodeOffers * OM
}.

(** The calls the thread makes on the outside world, in the order made. *)
Inductive Event : Type :=
| ConsiderNewJobExe (job_exe : QueuedJobExecution) (answer : Z)
| ScheduleJobExecutions (job_executions : list QueuedJobExecution)
| RetryDelay (ms : Z)
| LaunchTasks (offers : list string) (tasks : list (option Task))
| DeclineOffer (offer_id : string)
| Sleep (seconds : Z).

(** What one pass of the loop reads from the other managers and the
    database.  [schedule_job_executions attempt batch] is the outcome of the
    [attempt]-th call of [Queue.objects.schedule_job_executions] in the pass. *)
Record Round : Type := {
  scheduler_paused : bool;                          (* _scheduler_manager.is_paused() *)
  get_job_types : gmap Z JobType;                   (* _job_type_manager.get_job_types() *)
  get_nodes : list Node;                            (* _node_manager.get_nodes() *)
  get_queue : list Queue;                           (* Queue.objects.get_queue() *)
  schedule_job_executions :
    nat -> list QueuedJobExecution -> result (list RunningJobExecution)
}.

(** The mutable state the thread works on: its offer manager, the running
    job execution manager (the executions it holds), [self._job_types], and
    the log of outside calls. *)
Record State (OM : Type) : Type := {
  _offer_manager : OM;
  _job_exe_manager : list RunningJobExecution;
  _job_types : gmap Z JobType;
  calls : list Event
}.

Arguments _offer_manager {OM} _.
Arguments _job_exe_manager {OM} _.
Arguments _job_types {OM} _.
Arguments calls {OM} _.

(** A computation of the thread: state in, result and state out.  A raised
    exception keeps the state reached so far. *)
Definition M (OM A : Type) : Type := State OM -> result A * State OM.

Definition ret {OM A} (a : A) : M OM A := fun s => (Ok a, s).

Definition raise {OM A} (e : exn) : M OM A := fun s => (Raise e, s).

Definition bind {OM A B} (m : M OM A) (k : A -> M OM B) : M OM B :=
  fun s =>
    match m s with
    | (Ok a, s') => k a s'
    | (Raise e, s') => (Raise e, s')
    end.

Notation "x <- m ;; k" := (bind m (fun x => k))
  (at level 100, m at next level, right associativity).
Notation "m ;;; k" := (bind m (fun _ => k))
  (at level 100, right associativity).

Section Thread.
Context {OM : Type} `{!OfferManagerAPI OM}.

(** The state after further outside calls, after the offer manager changed,
    and after executions were handed to the running manager. *)
Definition log_calls (es : list Event) (s : State OM) : State OM :=
  {| _offer_manager := _offer_manager s; _job_exe_manager := _job_exe_manager s;
     _job_types := _job_types s; calls := calls s ++ es |}.

Definition with_offer_manager (om : OM) (s : State OM) : State OM :=
  {| _offer_manager := om; _job_exe_manager := _job_exe_manager s;
     _job_types := _job_types s; calls := calls s |}.

Definition with_job_exes (job_exes : list RunningJobExecution) (s : State OM) : State OM :=
  {| _offer_manager := _offer_manager s; _job_exe_manager := job_exes;
     _job_types := _job_types s; calls := calls s |}.

Definition with_job_types (job_types : gmap Z JobType) (s : State OM) : State OM :=
  {| _offer_manager := _offer_manager s; _job_exe_manager := _job_exe_manager s;
     _job_types := job_types; calls := calls s |}.

Definition emit (e : Event) : M OM unit :=
  fun s => (Ok tt, log_calls [e] s).

(** Run a method of the offer manager on [self._offer_manager]. *)
Definition on_offer_manager {A} (f : OM -> A * OM) : M OM A :=
  fun s => (Ok (fst (f (_offer_manager s))), with_offer_manager (snd (f (_offer_manager s))) s).

(** [self._job_exe_manager.add_job_exes(job_exes)] *)
Definition add_job_exes (job_exes : list RunningJobExecution) : M OM unit :=
  fun s => (Ok tt, with_job_exes (_job_exe_manager s ++ job_exes) s).

Definition set_job_types (job_types : gmap Z JobType) : M OM unit :=
  fun s => (Ok tt, with_job_types job_types s).

(** The [for queue in Queue.objects.get_queue()] loop of
    [_consider_new_job_exes], with [num_job_exes] as loop state. *)
Fixpoint consider_queue (entries : list Queue) (num_job_exes : Z) : M OM unit :=
  match entries with
  | [] => ret tt
  | entry :: rest =>
      fun s =>
        match _job_types s !! job_type_id entry with
        | None => consider_queue rest num_job_exes s                      (* continue *)
        | Some job_type =>
            if is_paused job_type then consider_queue rest num_job_exes s (* continue *)
            else
              let queued_job_exe := {| queue := entry |} in
              (answer <- on_offer_manager (consider_new_job_exe queued_job_exe) ;;
               emit (ConsiderNewJobExe queued_job_exe answer) ;;;
               if answer =? ACCEPTED then
                 if num_job_exes + 1 >=? MAX_NEW_JOB_EXES then ret tt      (* break *)
                 else consider_queue rest (num_job_exes + 1)
               else consider_queue rest num_job_exes) s
        end
  end.

Definition _consider_new_job_exes (round : Round) : M OM unit :=
  if scheduler_paused round then ret tt
  else consider_queue (get_queue round) 0.

Definition _consider_running_job_exes : M OM unit :=
  fun s =>
    on_offer_manager
      (fun om => (tt, foldl (fun om exe => consider_next_task exe om) om (_job_exe_manager s)))
      s.

(** The decorated body of [_schedule_queued_job_executions]: one call of
    [Queue.objects.schedule_job_executions] (the timing is only logged). *)
Definition schedule_query (round : Round) (job_executions : list QueuedJobExecution)
    (attempt : nat) : M OM (list RunningJobExecution) :=
  emit (ScheduleJobExecutions job_executions) ;;;
  fun s => (schedule_job_executions round attempt job_executions, s).

(** Modelled from the spec: [util.retry.retry_database_query] is not among
    the sources.  The spec's retry policy: the call is tried up to [max_tries]
    times; a transient database error ([OperationalError]) is followed by a
    wait that starts at [base_ms_delay], doubles, and never exceeds
    [max_ms_delay]; the error of the last try, and any other error at once,
    goes to the caller. *)
Fixpoint retry_database_query {A} (max_tries : nat) (delay max_ms_delay : Z)
    (attempt : nat) (f : nat -> M OM A) : M OM A :=
  match max_tries with
  | O => raise OperationalError
  | S tries_left =>
      fun s =>
        match f attempt s with
        | (Raise OperationalError, s') =>
            match tries_left with
            | O => (Raise OperationalError, s')
            | S _ =>
                (emit (RetryDelay delay) ;;;
                 retry_database_query tries_left (Z.min (2 * delay) max_ms_delay)
                   max_ms_delay (S attempt) f) s'
            end
        | other => other
        end
  end.

(** [@retry_database_query(max_tries=5, base_ms_delay=1000, max_ms_delay=5000)] *)
Definition _schedule_queued_job_executions (round : Round)
    (job_executions : list QueuedJobExecution) : M OM (list RunningJobExecution) :=
  retry_database_query 5 1000 5000 0 (schedule_query round job_executions).

(** [node_tasks] after the loop over the accepted running executions: a
    task is appended only when [start_next_task()] gave one. *)
Definition running_tasks (node_offers : NodeOffers) : list (option Task) :=
  foldl (fun node_tasks running_job_exe =>
           match start_next_task running_job_exe with
           | Some task => node_tasks ++ [Some task]
           | None => node_tasks
           end)
        [] (get_accepted_running_job_exes node_offers).

(** One pass of the first loop of [_schedule_accepted_tasks], on the pair
    ([tasks_to_launch], [queued_job_exes_to_schedule]). *)
Definition gather (acc : gmap Z (list (option Task)) * list QueuedJobExecution)
    (node_offers : NodeOffers) : gmap Z (list (option Task)) * list QueuedJobExecution :=
  (<[id (node node_offers) := running_tasks node_offers]> (fst acc),
   snd acc ++ get_accepted_new_job_exes node_offers).

(** The loop in the [try] block:
    [tasks_to_launch[exe.node_id].append(exe.start_next_task())]. *)
Fixpoint start_scheduled (scheduled_job_exes : list RunningJobExecution)
    (tasks_to_launch : gmap Z (list (option Task)))
  : result unit * gmap Z (list (option Task)) :=
  match scheduled_job_exes with
  | [] => (Ok tt, tasks_to_launch)
  | scheduled_job_exe :: rest =>
      match tasks_to_launch !! node_id scheduled_job_exe with
      | None => (Raise KeyError, tasks_to_launch)
      | Some node_tasks =>
          start_scheduled rest
            (<[node_id scheduled_job_exe := node_tasks ++ [start_next_task scheduled_job_exe]]>
               tasks_to_launch)
      end
  end.

(** The last loop: launch tasks on Mesos and count them. *)
Fixpoint launch (node_offers_list : list NodeOffers)
    (tasks_to_launch : gmap Z (list (option Task))) (num_tasks : Z) : M OM Z :=
  match node_offers_list with
  | [] => ret num_tasks
  | node_offers :: rest =>
      match tasks_to_launch !! id (node node_offers) with
      | None => raise KeyError
      | Some task_list =>
          emit (LaunchTasks (offer_ids node_offers) task_list) ;;;
          launch rest tasks_to_launch (num_tasks + Z.of_nat (length task_list))
      end
  end.

Definition _schedule_accepted_tasks (round : Round) : M OM Z :=
  node_offers_list <- on_offer_manager pop_offers_with_accepted_job_exes ;;
  let gathered := foldl gather (∅, []) node_offers_list in
  fun s =>
    match _schedule_queued_job_executions round (snd gathered) s with
    | (Ok scheduled_job_exes, s1) =>
        (add_job_exes scheduled_job_exes ;;;
         fun s2 =>
           match start_scheduled scheduled_job_exes (fst gathered) with
           | (Ok _, tasks_to_launch) => launch node_offers_list tasks_to_launch 0 s2
           | (Raise e, _) => (Raise e, s2)
           end) s1
    | (Raise OperationalError, s1) =>
        (* except OperationalError: logged, the launch loop still runs *)
        launch node_offers_list (fst gathered) 0 s1
    | (Raise e, s1) => (Raise e, s1)
    end.

Definition _perform_scheduling (round : Round) : M OM Z :=
  on_offer_manager (fun om => (tt, update_nodes (get_nodes round) om)) ;;;
  on_offer_manager (fun om => (tt, ready_new_offers om)) ;;;
  set_job_types (get_job_types round) ;;;
  _consider_running_job_exes ;;;
  _consider_new_job_exes round ;;;
  _schedule_accepted_tasks round.

(** The two nested loops that give every popped offer back to Mesos. *)
Definition decline_offers (node_offers_list : list NodeOffers) : M OM unit :=
  foldr (fun offer_id k => emit (DeclineOffer offer_id) ;;; k) (ret tt)
        (concat (offer_ids <$> node_offers_list)).

(** One pass of [while self._running] in [run]. *)
Definition run_once (round : Round) : M OM unit :=
  num_tasks <- _perform_scheduling round ;;
  if num_tasks =? 0 then
    node_offers_list <- on_offer_manager pop_all_offers ;;
    decline_offers node_offers_list ;;;
    emit (Sleep DELAY)
  else ret tt.

(** [run]: one [Round] per pass in which [self._running] was still true. *)
Fixpoint run (rounds : list Round) : M OM unit :=
  match rounds with
  | [] => ret tt
  | round :: later => run_once round ;;; run later
  end.

End Thread.

(** *** Vocabulary of the statements about the thread *)

(** A queue entry is offered for admission when its job type is in
    [self._job_types] and not paused. *)
Definition eligible (job_types : gmap Z JobType) (entry : Queue) : bool :=
  match job_types !! job_type_id entry with
  | Some job_type => negb (is_paused job_type)
  | None => false
  end.

(** How many of the offered executions were answered [ACCEPTED]. *)
Definition accepted_count {OM : Type} `{!OfferManagerAPI OM}
    (offered : list (QueuedJobExecution * Z)) : Z :=
  Z.of_nat (length (List.filter (fun p => snd p =? ACCEPTED) offered)).

(** Asking the offer manager about each execution of a list in turn: the
    answers, and the manager left behind. *)
Fixpoint ask_in_turn {OM : Type} `{!OfferManagerAPI OM}
    (job_exes : list QueuedJobExecution) (om : OM) : list (QueuedJobExecution * Z) * OM :=
  match job_exes with
  | [] => ([], om)
  | job_exe :: rest =>
      let answered := ask_in_turn rest (snd (consider_new_job_exe job_exe om)) in
      ((job_exe, fst (consider_new_job_exe job_exe om)) :: fst answered, snd answered)
  end.

(** The outside calls of [tries] consecutive tries of the scheduling query,
    all but the last followed by their wait. *)
Fixpoint retry_log (job_executions : list QueuedJobExecution) (tries : nat)
    (delay max_ms_delay : Z) : list Event :=
  match tries with
  | O => []
  | S O => [ScheduleJobExecutions job_executions]
  | S n =>
      ScheduleJobExecutions job_executions :: RetryDelay delay
        :: retry_log job_executions n (Z.min (2 * delay) max_ms_delay) max_ms_delay
  end.

(** The waits, the scheduling queries and the launches in a run of calls. *)
Definition retry_delays (es : list Event) : list Z :=
  omap (fun e => match e with RetryDelay ms => Some ms | _ => None end) es.

Definition schedule_calls (es : list Event) : list (list QueuedJobExecution) :=
  omap (fun e => match e with ScheduleJobExecutions b => Some b | _ => None end) es.

Definition launches (es : list Event) : list (list string * list (option Task)) :=
  omap (fun e => match e with LaunchTasks o t => Some (o, t) | _ => None end) es.

(** The executions of a batch that persistence placed on a given node. *)
Definition scheduled_on (k : Z) (scheduled : list RunningJobExecution)
  : list RunningJobExecution :=
  List.filter (fun exe => node_id exe =? k) scheduled.

(** The queued executions gathered from all node offers, in order. *)
Definition queued_batch (node_offers_list : list NodeOffers) : list QueuedJobExecution :=
  concat (get_accepted_new_job_exes <$> node_offers_list).

(** The node ids of a list of node offers. *)
Definition node_ids (node_offers_list : list NodeOffers) : list Z :=
  (fun node_offers => id (node node_offers)) <$> node_offers_list.

(** One [launchTasks] call per node offers, with the task list [tasks_of]
    gives for it, and the number of tasks in all of them. *)
Definition launch_calls (tasks_of : NodeOffers -> list (option Task))
    (node_offers_list : list NodeOffers) : list Event :=
  (fun node_offers => LaunchTasks (offer_ids node_offers) (tasks_of node_offers))
    <$> node_offers_list.

Definition task_total (tasks_of : NodeOffers -> list (option Task))
    (node_offers_list : list NodeOffers) : Z :=
  foldr (fun node_offers n => Z.of_nat (length (tasks_of node_offers)) + n) 0
        node_offers_list.

(** The launch list of a node after a successful scheduling query: the tasks
    of its accepted running executions, then whatever [start_next_task()]
    gave for each execution scheduled on the node. *)
Definition launch_list (scheduled : list RunningJobExecution) (node_offers : NodeOffers)
  : list (option Task) :=
  running_tasks node_offers
  ++ (start_next_task <$> scheduled_on (id (node node_offers)) scheduled).

(** The task list the dictionary [tasks_to_launch] holds for a node offers
    (empty when its node id is not a key). *)
Definition tasks_in (tasks_to_launch : gmap Z (list (option Task)))
    (node_offers : NodeOffers) : list (option Task) :=
  default [] (tasks_to_launch !! id (node node_offers)).

(** The questions put to the offer manager about queued executions, with
    their answers, in a run of calls. *)
Definition considered (es : list Event) : list (QueuedJobExecution * Z) :=
  omap (fun e => match e with ConsiderNewJobExe q a => Some (q, a) | _ => None end) es.

(** The state in which the queue is looked at: nodes and offers refreshed,
    the job types replaced by the round's, and every running execution
    considered for its next task, in the order the manager holds them. *)
Definition prepared {OM : Type} `{!OfferManagerAPI OM} (round : Round) (s : State OM)
  : State OM :=
  {| _offer_manager :=
       foldl (fun om exe => consider_next_task exe om)
             (ready_new_offers (update_nodes (get_nodes round) (_offer_manager s)))
             (_job_exe_manager s);
     _job_exe_manager := _job_exe_manager s;
     _job_types := get_job_types round;
     calls := calls s |}.

(** *** An offer manager for examples

    A manager whose answers are fixed in advance: it accepts exactly the
    queue entries whose id is in [admits], hands out [with_accepted] from
    [pop_offers_with_accepted_job_exes] and everything it holds from
    [pop_all_offers]. *)
Record FixedOffers : Type := {
  admits : list Z;
  with_accepted : list NodeOffers;
  unused : list NodeOffers
}.

#[global] Instance FixedOffers_api : OfferManagerAPI FixedOffers := {
  ACCEPTED := 1;
  update_nodes _ om := om;
  ready_new_offers om := om;
  consider_next_task _ om := om;
  consider_new_job_exe job_exe om :=
    (if bool_decide (queue_id (queue job_exe) ∈ admits om) then 1 else 2, om);
  pop_offers_with_accepted_job_exes om :=
    (with_accepted om, {| admits := admits om; with_accepted := []; unused := unused om |});
  pop_all_offers om :=
    (with_accepted om ++ unused om, {| admits := admits om; with_accepted := []; unused := [] |})
}.

(** *** Sample rounds *)

Definition t1 : Task := {| task_id := "t1" |}.

(** On node 7: execution 1 has a next task, execution 2 has none. *)
Definition running1 : RunningJobExecution :=
  {| exe_id := 1; node_id := 7; next_task := Some t1 |}.
Definition running2 : RunningJobExecution :=
  {| exe_id := 2; node_id := 7; next_task := None |}.

Definition queued3 : QueuedJobExecution :=
  {| queue := {| queue_id := 3; job_type_id := 1 |} |}.

Definition offers7 : NodeOffers :=
  {| node := {| id := 7 |}; offer_ids := ["o1"; "o2"];
     get_accepted_running_job_exes := [running1; running2];
     get_accepted_new_job_exes := [queued3] |}.

(** Node 8 holds one offer and accepted one queued execution only. *)
Definition offers8 : NodeOffers :=
  {| node := {| id := 8 |}; offer_ids := ["o3"];
     get_accepted_running_job_exes := [];
     get_accepted_new_job_exes := [queued3] |}.

Definition state_with (accepted rest : list NodeOffers) : State FixedOffers :=
  {| _offer_manager := {| admits := [3; 5]; with_accepted := accepted; unused := rest |};
     _job_exe_manager := [running1; running2];
     _job_types := {[ 1 := {| is_paused := false |}; 2 := {| is_paused := true |} ]};
     calls := [] |}.

(** Entries 3 and 5 are of the active job type 1, entry 4 of the paused job
    type 2, entry 6 of the unknown job type 9. *)
Definition round_with (paused : bool)
    (db : nat -> list QueuedJobExecution -> result (list RunningJobExecution)) : Round :=
  {| scheduler_paused := paused;
     get_job_types := {[ 1 := {| is_paused := false |}; 2 := {| is_paused := true |} ]};
     get_nodes := [ {| id := 7 |}; {| id := 8 |} ];
     get_queue := [ {| queue_id := 3; job_type_id := 1 |};
                    {| queue_id := 4; job_type_id := 2 |};
                    {| queue_id := 6; job_type_id := 9 |};
                    {| queue_id := 5; job_type_id := 1 |} ];
     schedule_job_executions := db |}.

(** A database that is down for the whole round, and one that schedules the
    batch's single execution on node 8, where it has no task yet. *)
Definition db_down : nat -> list QueuedJobExecution -> result (list RunningJobExecution) :=
  fun _ _ => Raise OperationalError.

Definition scheduled3 : RunningJobExecution :=
  {| exe_id := 3; node_id := 8; next_task := None |}.

Definition db_up : nat -> list QueuedJobExecution -> result (list RunningJobExecution) :=
  fun _ _ => Ok [scheduled3].

(** A queue of 600 entries of the active job type 1, all of which the offer
    manager admits. *)
Definition long_round : Round :=
  {| scheduler_paused := false;
     get_job_types := {[ 1 := {| is_paused := false |} ]};
     get_nodes := [ {| id := 7 |} ];
     get_queue := (fun n => {| queue_id := n; job_type_id := 1 |}) <$> seqZ 0 600;
     schedule_job_executions := db_down |}.

Definition long_state : State FixedOffers :=
  {| _offer_manager := {| admits := seqZ 0 600; with_accepted := []; unused := [] |};
     _job_exe_manager := [];
     _job_types := {[ 1 := {| is_paused := false |} ]};
     calls := [] |}.

(** A round in which nothing is queued and the manager accepted nothing. *)
Definition idle_round : Round :=
  {| scheduler_paused := false; get_job_types := ∅; get_nodes := [ {| id := 7 |} ];
     get_queue := []; schedule_job_executions := fun _ _ => Ok [] |}.

Definition idle_state : State FixedOffers :=
  {| _offer_manager := {| admits := []; with_accepted := [];
                          unused := [ {| node := {| id := 7 |}; offer_ids := ["o1"; "o2"];
                                         get_accepted_running_job_exes := [];
                                         get_accepted_new_job_exes := [] |};
                                      {| node := {| id := 8 |}; offer_ids := ["o3"];
                                         get_accepted_running_job_exes := [];
                                         get_accepted_new_job_exes := [] |} ] |};
     _job_exe_manager := []; _job_types := ∅; calls := [] |}.

End Schedule.

(** ** ingest/models.py *)

Module Ingest.

(** *** Strings: [str.split(',')] and [','.join] *)

Definition comma : ascii := ","%char.

(** [s.split(',')]: one piece more than there are commas, never empty. *)
Fixpoint split_comma (s : string) : list string :=
  match s with
  | EmptyString => [EmptyString]
  | String c rest =>
      if Ascii.eqb c comma then EmptyString :: split_comma rest
      else match split_comma rest with
           | piece :: pieces => String c piece :: pieces
           | [] => [String c EmptyString]
           end
  end.

(** [','.join(pieces)] *)
Definition join_comma (pieces : list string) : string := String.concat "," pieces.

Fixpoint has_comma (s : string) : bool :=
  match s with
  | EmptyString => false
  | String c rest => Ascii.eqb c comma || has_comma rest
  end.

(** Modelled from the spec: [storage.models.VALID_TAG_PATTERN] is not among
    the sources.  By the spec each tag matches [[A-Za-z0-9_ ]+], and by the
    docstring of [add_data_type_tag] a valid tag contains only alphanumeric
    characters, underscores and spaces. *)
Definition tag_char (c : ascii) : bool :=
  let n := N_of_ascii c in
  ((48 <=? n) && (n <=? 57) || (65 <=? n) && (n <=? 90)
   || (97 <=? n) && (n <=? 122) || (n =? 95) || (n =? 32))%N.

Fixpoint all_tag_chars (s : string) : bool :=
  match s with
  | EmptyString => true
  | String c rest => tag_char c && all_tag_chars rest
  end.

Definition VALID_TAG_PATTERN_match (tag : string) : bool :=
  match tag with
  | EmptyString => false
  | _ => all_tag_chars tag
  end.

(** *** Dates and times

    A [datetime] is what its own fields show, and the offset of its zone:
    the date as a day number (the proleptic Gregorian ordinal, in one-to-one
    correspondence with year, month and day), the hour, the microseconds past
    the hour, and [utcoffset()] in microseconds.  The first three are the
    wall-clock values in the zone the value carries: [.date()], [.year],
    [.month], [.day] and [.hour] read them as they are, whereas [<=], [>] and
    the range tests of the database compare the instants.  An hourly time
    slot is built with [tzinfo=timezone.utc] from a day and an hour, so it is
    a day number and an hour. *)
Record datetime : Type := { day_number : Z; hour : Z; past_hour : Z; utcoffset : Z }.

Abbreviation time_slot := (Z * Z)%type.

(** [datetime.datetime(d.year, d.month, d.day, hour, tzinfo=timezone.utc)] *)
Definition slot_at (d : datetime) (h : Z) : time_slot := (day_number d, h).

(** The instant a datetime denotes, in microseconds of UTC. *)
Definition instant (d : datetime) : Z :=
  (day_number d * 24 + hour d) * 3600000000 + past_hour d - utcoffset d.

(** [a <= b] and [a > b] on aware datetimes compare the instants. *)
Definition dt_leb (a b : datetime) : bool := instant a <=? instant b.

Definition dt_gtb (a b : datetime) : bool := negb (dt_leb a b).

(** [d + datetime.timedelta(days=n)]: the zone stays. *)
Definition add_days (d : datetime) (n : Z) : datetime :=
  {| day_number := day_number d + n; hour := hour d; past_hour := past_hour d;
     utcoffset := utcoffset d |}.

(** *** The models *)

(** [IngestCounts(time, files=0, size=0)] *)
Record IngestCounts : Type := { time : time_slot; files : Z; size : Z }.

Definition IngestCounts_init (slot : time_slot) : IngestCounts :=
  {| time := slot; files := 0; size := 0 |}.

(** [IngestStatus]; its [files] and [size] are [total_files] and
    [total_size] here, a record's field names being global in Rocq. *)
Record IngestStatus : Type := {
  strike : Z;
  most_recent : option datetime;
  total_files : Z;
  total_size : Z;
  values : list IngestCounts
}.

(** [IngestStatus(strike)]: [values or []] gives a list of its own. *)
Definition IngestStatus_init (strike_id : Z) : IngestStatus :=
  {| strike := strike_id; most_recent := None; total_files := 0; total_size := 0;
     values := [] |}.

(** A row of the [ingest] table: the columns the embedded methods read.  A
    nullable column is an [option]; [ingest_strike] is the strike the row
    points to. *)
Record Ingest : Type := {
  ingest_strike : option Z;
  status : string;
  file_size : option Z;
  data_type : string;
  ingest_ended : option datetime;
  data_started : option datetime;
  data_ended : option datetime
}.

(** The two tables the status query reads, and today's day number for
    [timezone.now().date()]. *)
Record Database : Type := {
  ingest_rows : list Ingest;      (* Ingest.objects *)
  strike_rows : list Z;           (* Strike.objects.all() *)
  today : Z
}.

(** *** Data type tags *)

(** [get_data_type_tags]: an empty [data_type] is falsy and gives no tag. *)
Definition get_data_type_tags (self : Ingest) : gset string :=
  match data_type self with
  | EmptyString => ∅
  | _ => list_to_set (split_comma (data_type self))
  end.

Definition with_data_type (self : Ingest) (text : string) : Ingest :=
  {| ingest_strike := ingest_strike self; status := status self;
     file_size := file_size self; data_type := text;
     ingest_ended := ingest_ended self; data_started := data_started self;
     data_ended := data_ended self |}.

(** [','.join(tags)] walks the set in the order [iter] gives for it: the
    iteration order of a Python set is not fixed by its content. *)
Definition _set_data_type_tags (iter : gset string -> list string)
    (self : Ingest) (tags : gset string) : Ingest :=
  with_data_type self (join_comma (iter tags)).

Definition add_data_type_tag (iter : gset string -> list string)
    (self : Ingest) (tag : string) : result unit * Ingest :=
  if negb (VALID_TAG_PATTERN_match tag) then (Raise InvalidDataTypeTag, self)
  else (Ok tt, _set_data_type_tags iter self (get_data_type_tags self ∪ {[ tag ]})).

(** An order is admissible when it lists the members of the set, each once. *)
Definition set_iteration (iter : gset string -> list string) : Prop :=
  forall tags : gset string, iter tags ≡ₚ elements tags.

(** *** The status query *)

(** The date the status values are grouped by. *)
Definition dated (use_ingest_time : bool) (ingest : Ingest) : option datetime :=
  if use_ingest_time then ingest_ended ingest else data_started ingest.

(** [field__gte=bound] and [field__lte=bound]: a NULL column matches
    neither. *)
Definition gte (field : option datetime) (bound : datetime) : bool :=
  match field with Some d => dt_leb bound d | None => false end.

Definition lte (field : option datetime) (bound : datetime) : bool :=
  match field with Some d => dt_leb d bound | None => false end.

Definition started_filter (use_ingest_time : bool) (started : datetime) (i : Ingest) : bool :=
  if use_ingest_time then gte (ingest_ended i) started else gte (data_ended i) started.

Definition ended_filter (use_ingest_time : bool) (ended : datetime) (i : Ingest) : bool :=
  if use_ingest_time then lte (ingest_ended i) ended else lte (data_started i) ended.

(** Ascending order of a nullable column, NULL last. *)
Definition key_le (a b : option datetime) : Prop :=
  match a, b with
  | Some x, Some y => Is_true (dt_leb x y)
  | _, None => True
  | None, Some _ => False
  end.

#[global] Instance key_le_dec (a b : option datetime) : Decision (key_le a b).
Proof. destruct a, b; simpl; apply _. Defined.

Definition order_by (key : Ingest -> option datetime) (rows : list Ingest) : list Ingest :=
  merge_sort (fun a b => key_le (key a) (key b)) rows.

(** [_update_status]: count one ingest in its hourly slot and in the
    summary.  Adding a NULL [file_size] raises [TypeError]. *)
Definition _update_status (ingest_status : IngestStatus)
    (time_slots : gmap time_slot IngestCounts) (ingest : Ingest) (d : datetime)
  : result (IngestStatus * gmap time_slot IngestCounts) :=
  let slot := slot_at d (hour d) in
  let time_slots1 :=
    match time_slots !! slot with
    | None => <[slot := IngestCounts_init slot]> time_slots
    | Some _ => time_slots
    end in
  let counts := default (IngestCounts_init slot) (time_slots1 !! slot) in
  match file_size ingest with
  | None => Raise TypeError
  | Some bytes =>
      Ok ({| strike := strike ingest_status;
             most_recent :=
               match most_recent ingest_status with
               | None => Some d
               | Some recent => if dt_gtb d recent then Some d else Some recent
               end;
             total_files := total_files ingest_status + 1;
             total_size := total_size ingest_status + bytes;
             values := values ingest_status |},
          <[slot := {| time := time counts; files := files counts + 1;
                       size := size counts + bytes |}]> time_slots1)
  end.

(** The two dictionaries [_group_by_time] builds, keyed by strike. *)
Definition Groups : Type :=
  (gmap Z IngestStatus * gmap Z (gmap time_slot IngestCounts))%type.

(** Build a mapping of all possible strike processes. *)
Definition init_groups (strikes : list Z) : Groups :=
  foldl (fun maps strike_id =>
           (<[strike_id := IngestStatus_init strike_id]> (fst maps),
            <[strike_id := ∅]> (snd maps)))
        (∅, ∅) strikes.

(** One pass of [for ingest in ingests]. *)
Definition group_ingest (use_ingest_time : bool) (maps : Groups) (ingest : Ingest)
  : result Groups :=
  match ingest_strike ingest with
  | None => Ok maps                                   (* not in strike_map *)
  | Some strike_id =>
      match fst maps !! strike_id with
      | None => Ok maps                               (* logged, continue *)
      | Some ingest_status =>
          match dated use_ingest_time ingest with
          | None => Ok maps
          | Some d =>
              match snd maps !! strike_id with
              | None => Raise KeyError
              | Some time_slots =>
                  match _update_status ingest_status time_slots ingest d with
                  | Raise e => Raise e
                  | Ok (ingest_status', time_slots') =>
                      Ok (<[strike_id := ingest_status']> (fst maps),
                          <[strike_id := time_slots']> (snd maps))
                  end
              end
          end
      end
  end.

Fixpoint group_ingests (use_ingest_time : bool) (maps : Groups) (ingests : list Ingest)
  : result Groups :=
  match ingests with
  | [] => Ok maps
  | ingest :: rest =>
      match group_ingest use_ingest_time maps ingest with
      | Raise e => Raise e
      | Ok maps' => group_ingests use_ingest_time maps' rest
      end
  end.

(** [{strike_map[strike]: slot_map[strike] for strike in strike_map}], as
    the list of its items. *)
Fixpoint pair_groups (entries : list (Z * IngestStatus))
    (slot_map : gmap Z (gmap time_slot IngestCounts))
  : result (list (IngestStatus * gmap time_slot IngestCounts)) :=
  match entries with
  | [] => Ok []
  | (strike_id, ingest_status) :: rest =>
      match slot_map !! strike_id with
      | None => Raise KeyError
      | Some time_slots =>
          match pair_groups rest slot_map with
          | Raise e => Raise e
          | Ok pairs => Ok ((ingest_status, time_slots) :: pairs)
          end
      end
  end.

Definition _group_by_time (strikes : list Z) (ingests : list Ingest) (use_ingest_time : bool)
  : result (list (IngestStatus * gmap time_slot IngestCounts)) :=
  match group_ingests use_ingest_time (init_groups strikes) ingests with
  | Raise e => Raise e
  | Ok maps => pair_groups (map_to_list (fst maps)) (snd maps)
  end.

(** The value appended for one hour of one day of the range. *)
Definition status_vals (time_slots : gmap time_slot IngestCounts)
    (started : datetime) (day h : Z) : IngestCounts :=
  let slot := slot_at (add_days started day) h in
  match time_slots !! slot with
  | Some counts => counts
  | None => IngestCounts_init slot
  end.

(** [_fill_status]: [range(n)] is empty for [n <= 0], and so is [seqZ 0 n]. *)
Definition _fill_status (now_day : Z) (ingest_status : IngestStatus)
    (time_slots : gmap time_slot IngestCounts) (started ended : option datetime)
  : IngestStatus :=
  let started :=
    default {| day_number := now_day; hour := 0; past_hour := 0; utcoffset := 0 |} started in
  let ended :=
    default {| day_number := now_day; hour := 23; past_hour := 3599999999; utcoffset := 0 |}
            ended in
  let duration_days := day_number ended - day_number started in
  {| strike := strike ingest_status; most_recent := most_recent ingest_status;
     total_files := total_files ingest_status; total_size := total_size ingest_status;
     values :=
       values ingest_status
       ++ (seqZ 0 (duration_days + 1) ≫= fun day =>
             status_vals time_slots started day <$> seqZ 0 24) |}.

Definition is_ingested (i : Ingest) : bool := String.eqb (status i) "INGESTED".

(** The query set [get_status] hands to [_group_by_time]. *)
Definition status_ingests (db : Database) (started ended : option datetime)
    (use_ingest_time : bool) : list Ingest :=
  let ingests := List.filter is_ingested (ingest_rows db) in
  let ingests :=
    match started with
    | Some bound => List.filter (started_filter use_ingest_time bound) ingests
    | None => ingests
    end in
  let ingests :=
    match ended with
    | Some bound => List.filter (ended_filter use_ingest_time bound) ingests
    | None => ingests
    end in
  order_by (if use_ingest_time then ingest_ended else data_started) ingests.

Definition get_status (db : Database) (started ended : option datetime)
    (use_ingest_time : bool) : result (list IngestStatus) :=
  match _group_by_time (strike_rows db) (status_ingests db started ended use_ingest_time)
          use_ingest_time with
  | Raise e => Raise e
  | Ok groups =>
      Ok ((fun group => _fill_status (today db) (fst group) (snd group) started ended)
            <$> groups)
  end.

(** *** Vocabulary of the statements about the status query *)


(** The counts a slot dictionary holds for a slot: zero when the slot is
    not a key. *)
Definition slot_files (time_slots : gmap time_slot IngestCounts) (slot : time_slot) : Z :=
  from_option files 0 (time_slots !! slot).

Definition slot_size (time_slots : gmap time_slot IngestCounts) (slot : time_slot) : Z :=
  from_option size 0 (time_slots !! slot).

(** The ingest belongs to strike [k] and its date falls in [slot]. *)
Definition falls_in (use_ingest_time : bool) (k : Z) (slot : time_slot) (i : Ingest) : bool :=
  match ingest_strike i, dated use_ingest_time i with
  | Some k', Some d => (k' =? k) && bool_decide (slot_at d (hour d) = slot)
  | _, _ => false
  end.


Definition count_rows (p : Ingest -> bool) (rows : list Ingest) : Z :=
  Z.of_nat (length (List.filter p rows)).

Definition sum_sizes (p : Ingest -> bool) (rows : list Ingest) : Z :=
  foldr (fun i acc => if p i then default 0 (file_size i) + acc else acc) 0 rows.

(** Every entry of a slot dictionary sits under its own time. *)
Definition well_slotted (time_slots : gmap time_slot IngestCounts) : Prop :=
  forall slot c, time_slots !! slot = Some c -> time c = slot.

(** What the loop of [_group_by_time] keeps true of its two dictionaries. *)
Definition groups_inv (maps : Groups) : Prop :=
  (forall k st, fst maps !! k = Some st -> strike st = k /\ values st = []) /\
  (forall k, is_Some (fst maps !! k) <-> is_Some (snd maps !! k)) /\
  (forall k time_slots, snd maps !! k = Some time_slots -> well_slotted time_slots).

(** *** Vocabulary of the statements about tags and summaries *)

(** [for tag in tags: ingest.add_data_type_tag(tag)]: the first exception
    ends the loop. *)
Fixpoint add_each (iter : gset string -> list string) (self : Ingest) (tags : list string)
  : result unit * Ingest :=
  match tags with
  | [] => (Ok tt, self)
  | tag :: rest =>
      match add_data_type_tag iter self tag with
      | (Ok _, self') => add_each iter self' rest
      | (Raise e, self') => (Raise e, self')
      end
  end.

(** The ingest points to strike [k] and carries the date the query groups
    by. *)
Definition belongs (use_ingest_time : bool) (k : Z) (i : Ingest) : bool :=
  match ingest_strike i, dated use_ingest_time i with
  | Some k', Some _ => k' =? k
  | _, _ => false
  end.

(** The row passes the filters of [get_status]: status INGESTED and, for each
    bound that is given, the range test on that bound. *)
Definition in_range (use_ingest_time : bool) (started ended : option datetime)
    (i : Ingest) : bool :=
  is_ingested i
  && match started with
     | Some bound => started_filter use_ingest_time bound i
     | None => true
     end
  && match ended with
     | Some bound => ended_filter use_ingest_time bound i
     | None => true
     end.


(** The dates of the rows that belong to strike [k]. *)
Definition dates_of (use_ingest_time : bool) (k : Z) (rows : list Ingest) : list datetime :=
  omap (fun i => if belongs use_ingest_time k i then dated use_ingest_time i else None) rows.

(** [recent] is the latest of [dates]: nothing when there is no date. *)
Definition latest_of (dates : list datetime) (recent : option datetime) : Prop :=
  match recent with
  | None => dates = []
  | Some d => d ∈ dates /\ Forall (fun d' => dt_leb d' d = true) dates
  end.

(** The list of a date that may be missing. *)
Definition known_date (recent : option datetime) : list datetime :=
  match recent with Some d => [d] | None => [] end.

(** *** Sample rows *)

Definition at_time (day h : Z) : option datetime :=
  Some {| day_number := day; hour := h; past_hour := 0; utcoffset := 0 |}.

Definition row (strike_id : Z) (state : string) (bytes day h : Z) : Ingest :=
  {| ingest_strike := Some strike_id; status := state; file_size := Some bytes;
     data_type := ""; ingest_ended := at_time day h;
     data_started := at_time day h; data_ended := at_time day h |}.

(** Strike 1 ingested two files in hour 5 of day 100 and one in hour 0 of
    day 101; a fourth file is still transferring. *)
Definition sample_db : Database :=
  {| ingest_rows := [ row 1 "INGESTED" 10 100 5; row 1 "INGESTED" 20 100 5;
                      row 1 "TRANSFERRING" 40 100 5; row 1 "INGESTED" 7 101 0 ];
     strike_rows := [1];
     today := 101 |}.

(** Five hours west of UTC, in microseconds. *)
Definition west5 : Z := -18000000000.

(** The two days the sample rows lie in, asked for by data time with bounds
    that carry the zone -05:00: from 00:00 of day 100, which is 05:00 UTC, to
    23:00 of day 101. *)
Definition sample_started : datetime :=
  {| day_number := 100; hour := 0; past_hour := 0; utcoffset := west5 |}.
Definition sample_ended : datetime :=
  {| day_number := 101; hour := 23; past_hour := 0; utcoffset := west5 |}.

(** Two bounds late on day 100 in the zone -05:00, 23:00 and 23:30: in UTC
    they lie on day 101, at 04:00 and 04:30. *)
Definition late_started : datetime :=
  {| day_number := 100; hour := 23; past_hour := 0; utcoffset := west5 |}.
Definition late_ended : datetime :=
  {| day_number := 100; hour := 23; past_hour := 1800000000; utcoffset := west5 |}.

(** The sample table with one more file of strike 1, ingested at 04:15 UTC of
    day 101. *)
Definition late_db : Database :=
  {| ingest_rows :=
       {| ingest_strike := Some 1; status := "INGESTED"; file_size := Some 5;
          data_type := "";
          ingest_ended := Some {| day_number := 101; hour := 4; past_hour := 900000000;
                                  utcoffset := 0 |};
          data_started := Some {| day_number := 101; hour := 4; past_hour := 900000000;
                                  utcoffset := 0 |};
          data_ended := Some {| day_number := 101; hour := 4; past_hour := 900000000;
                                utcoffset := 0 |} |}
       :: ingest_rows sample_db;
     strike_rows := [1];
     today := 101 |}.


Definition sample_statuses : list IngestStatus :=
  Eval vm_compute in
    match get_status sample_db (Some sample_started) (Some sample_ended) false with
    | Ok statuses => statuses
    | Raise _ => []
    end.

Definition tagged : Ingest :=
  {| ingest_strike := None; status := "INGESTED"; file_size := Some 1;
     data_type := "landsat,level 1"; ingest_ended := None; data_started := None;
     data_ended := None |}.

End Ingest.


(* ===================================================================== *)
(** * Part II - the theorems                                              *)
(* ===================================================================== *)

(** ** The cleanup manager *)

Module CleanupProofs.
Import Cleanup.

Section Generic.
Context {NC : Type} `{!NodeCleanupAPI NC}.

Lemma update_node_agent_ids (m : CleanupManager NC) (n : Node) :
  _agent_ids (update_node m n) = <[agent_id n := id n]> (_agent_ids m).
Proof. reflexivity. Qed.

Lemma foldl_update_node_agent_ids (nodes : list Node) (m : CleanupManager NC) :
  _agent_ids (foldl update_node m nodes)
  = list_to_map (reverse (agent_pairs nodes)) ∪ _agent_ids m.
Proof.
  revert m. induction nodes as [|n nodes IH]; intros m; simpl.
  - by rewrite (left_id_L ∅ (∪)).
  - rewrite IH, update_node_agent_ids.
    rewrite reverse_cons, list_to_map_app.
    simpl. rewrite insert_empty, <- (assoc_L (∪)).
    by rewrite <- insert_union_singleton_l.
Qed.

Lemma foldl_update_node_nodes (nodes : list Node) (m : CleanupManager NC) (k : Z) :
  _nodes (foldl update_node m nodes) !! k
  = match _nodes m !! k with
    | Some nc => Some nc
    | None => NodeCleanup_init <$> first_with_id k nodes
    end.
Proof.
  revert m. induction nodes as [|n nodes IH]; intros m; cbn [foldl].
  - unfold first_with_id. simpl. by destruct (_nodes m !! k).
  - rewrite IH. unfold first_with_id, update_node. cbn [_nodes List.find].
    destruct (_nodes m !! id n) as [nc0|] eqn:Hn.
    + destruct (_nodes m !! k) as [nc|] eqn:Hk; [done|].
      rewrite bool_decide_eq_false_2; [done|congruence].
    + case_bool_decide as Hid.
      * subst k. rewrite lookup_insert_eq, Hn. done.
      * rewrite lookup_insert_ne by done. done.
Qed.

Lemma first_with_id_Some (k : Z) (nodes : list Node) (s0 : Node) :
  first_with_id k nodes = Some s0 -> s0 ∈ nodes /\ id s0 = k.
Proof.
  unfold first_with_id. intros H. apply find_some in H as [Hin Hk].
  apply bool_decide_eq_true_1 in Hk. split; [by apply list_elem_of_In|done].
Qed.

Lemma first_with_id_None (k : Z) (nodes : list Node) :
  first_with_id k nodes = None <-> k ∉ id <$> nodes.
Proof.
  unfold first_with_id. induction nodes as [|n nodes IH].
  - split; [intros _; apply not_elem_of_nil|done].
  - rewrite fmap_cons, not_elem_of_cons. cbn [List.find].
    case_bool_decide as Hid.
    + split; [done|]. intros [Hne _]. congruence.
    + rewrite IH. split; [intros Hn; split; [congruence|done] | by intros [_ Hn]].
Qed.

Lemma agent_pairs_fst (nodes : list Node) :
  (agent_pairs nodes).*1 = agent_id <$> nodes.
Proof. unfold agent_pairs. by rewrite <- list_fmap_compose. Qed.

Lemma update_nodes_agent_ids (self : CleanupManager NC) (S : list Node) :
  _agent_ids (update_nodes self S) = list_to_map (reverse (agent_pairs S)).
Proof.
  unfold update_nodes. rewrite foldl_update_node_agent_ids.
  cbn [_agent_ids]. by rewrite (right_id_L ∅ (∪)).
Qed.

End Generic.

(** C1 (as amended): for a job execution whose [node_id] is not a key of
    [_nodes], [add_job_execution] raises [KeyError] (the dictionary subscript
    fails) and leaves the whole manager, every per-node cleanup queue
    included, as it was. *)
Theorem add_job_execution_unknown_node
    {NC : Type} `{!NodeCleanupAPI NC}
    (self : CleanupManager NC) (job_exe : RunningJobExecution) :
  _nodes self !! node_id job_exe = None ->
  add_job_execution self job_exe = (Raise KeyError, self).
Proof. intros Hunknown. unfold add_job_execution. by rewrite Hunknown. Qed.

Lemma add_job_execution_unknown_node_witness :
  add_job_execution one_node_manager {| exe_id := 10; node_id := 2 |}
  = (Raise KeyError, one_node_manager).
Proof. apply add_job_execution_unknown_node. reflexivity. Defined.

(** C1 (as stated) fails: on the manager that knows only node 1, adding an
    execution that ran on node 2 does not return silently; the call raises
    [KeyError]. *)
Lemma add_job_execution_unknown_node_not_silent :
  _nodes one_node_manager !! 2 = None /\
  fst (add_job_execution one_node_manager {| exe_id := 10; node_id := 2 |}) = Raise KeyError /\
  ~ (fst (add_job_execution one_node_manager {| exe_id := 10; node_id := 2 |}) = Ok tt).
Proof. split; [reflexivity|]. split; [reflexivity|discriminate]. Qed.

(** C9: a task timeout or a task status update whose [agent_id] is not a key
    of [_agent_ids] makes [handle_task_timeout], respectively
    [handle_task_update], return without raising and leaves the manager (the
    agent map and every per-node cleanup state) unchanged. *)
Theorem handle_unknown_agent_ignored
    {NC : Type} `{!NodeCleanupAPI NC}
    (self : CleanupManager NC) (agent : string) :
  _agent_ids self !! agent = None ->
  (forall task : Task, task_agent_id task = agent ->
     handle_task_timeout self task = (Ok tt, self)) /\
  (forall task_update : TaskStatusUpdate, update_agent_id task_update = agent ->
     handle_task_update self task_update = (Ok tt, self)).
Proof.
  intros Hunknown. split.
  - intros task <-. unfold handle_task_timeout, dispatch_by_agent. by rewrite Hunknown.
  - intros u <-. unfold handle_task_update, dispatch_by_agent. by rewrite Hunknown.
Qed.

Lemma handle_unknown_agent_ignored_witness :
  handle_task_timeout one_node_manager {| task_id := "t"; task_agent_id := "gone" |}
  = (Ok tt, one_node_manager) /\
  handle_task_update one_node_manager
    {| update_task_id := "t"; update_agent_id := "gone"; update_status := FAILED |}
  = (Ok tt, one_node_manager).
Proof.
  pose proof (handle_unknown_agent_ignored one_node_manager "gone" eq_refl) as [Ht Hu].
  split; [apply Ht | apply Hu]; reflexivity.
Defined.

(** C4: after [update_nodes S] the agent map is exactly the map of the pairs
    (agent id, node id) of [S] (a later node of [S] wins where two carry one
    agent id): every entry comes from a node of [S], every node of [S] has an
    entry, and it is its own node id when agent ids are distinct.  A node id
    known before keeps the very [NodeCleanup] it had; a node id of [S] that
    was not known gets the [NodeCleanup] freshly constructed from its first
    node in [S], whose queue is empty; no other node id appears. *)
Theorem update_nodes_spec
    {NC : Type} `{!NodeCleanupAPI NC}
    (self : CleanupManager NC) (S : list Node) :
  (forall n : Node, nc_job_exes (NodeCleanup_init n) = []) ->
  _agent_ids (update_nodes self S) = list_to_map (reverse (agent_pairs S)) /\
  (forall a n, _agent_ids (update_nodes self S) !! a = Some n ->
     exists s, s ∈ S /\ agent_id s = a /\ id s = n) /\
  (forall s, s ∈ S -> is_Some (_agent_ids (update_nodes self S) !! agent_id s)) /\
  (NoDup (agent_id <$> S) ->
     forall s, s ∈ S -> _agent_ids (update_nodes self S) !! agent_id s = Some (id s)) /\
  (forall k nc, _nodes self !! k = Some nc -> _nodes (update_nodes self S) !! k = Some nc) /\
  (forall s, s ∈ S -> _nodes self !! id s = None ->
     exists s0 nc, first_with_id (id s) S = Some s0 /\
       _nodes (update_nodes self S) !! id s = Some nc /\
       nc = NodeCleanup_init s0 /\ nc_job_exes nc = []) /\
  (forall k, _nodes self !! k = None -> k ∉ id <$> S ->
     _nodes (update_nodes self S) !! k = None).
Proof.
  intros Hempty.
  assert (Hnodes : forall k, _nodes (update_nodes self S) !! k
            = match _nodes self !! k with
              | Some nc => Some nc
              | None => NodeCleanup_init <$> first_with_id k S
              end).
  { intros k. unfold update_nodes. by rewrite foldl_update_node_nodes. }
  rewrite update_nodes_agent_ids.
  split; [reflexivity|]. split; [|split; [|split; [|split; [|split]]]].
  - intros a n Hl. apply elem_of_list_to_map_2 in Hl.
    rewrite elem_of_reverse in Hl. unfold agent_pairs in Hl. apply list_elem_of_fmap in Hl as (s & Heq & Hs).
    exists s. inversion Heq. done.
  - intros s Hs. apply not_eq_None_Some. intros Hnone.
    apply not_elem_of_list_to_map in Hnone. apply Hnone.
    rewrite fmap_reverse, elem_of_reverse, agent_pairs_fst.
    by apply list_elem_of_fmap_2.
  - intros Hnd s Hs. apply elem_of_list_to_map_1.
    + rewrite fmap_reverse, agent_pairs_fst. by rewrite reverse_Permutation.
    + apply elem_of_reverse. unfold agent_pairs.
      by apply (list_elem_of_fmap_2 (fun n => (agent_id n, id n))).
  - intros k nc Hk. by rewrite Hnodes, Hk.
  - intros s Hs Hk. rewrite Hnodes, Hk.
    destruct (first_with_id (id s) S) as [s0|] eqn:Hf.
    + exists s0, (NodeCleanup_init s0). done.
    + apply first_with_id_None in Hf. exfalso. apply Hf. by apply list_elem_of_fmap_2.
  - intros k Hk Hnot. rewrite Hnodes, Hk.
    apply first_with_id_None in Hnot. by rewrite Hnot.
Qed.

Lemma update_nodes_spec_witness :
  _agent_ids (update_nodes busy_manager snapshot) = {[ "a1-new" := 1; "a2" := 2 ]} /\
  (lnc_queue <$> _nodes (update_nodes busy_manager snapshot) !! 1)
  = Some [ {| exe_id := 10; node_id := 1 |} ] /\
  (lnc_queue <$> _nodes (update_nodes busy_manager snapshot) !! 2) = Some [].
Proof.
  pose proof (update_nodes_spec busy_manager snapshot (fun _ => eq_refl))
    as (Hagents & _ & _ & _ & Hkept & Hnew & _).
  split; [|split].
  - rewrite Hagents. apply map_eq. intros a. vm_compute. reflexivity.
  - rewrite (Hkept 1 _ eq_refl). reflexivity.
  - destruct (Hnew {| id := 2; agent_id := "a2" |}) as (s0 & nc & _ & Hl & _ & Hq).
    + apply list_elem_of_In. simpl. tauto.
    + reflexivity.
    + cbn [id] in Hl. rewrite Hl. simpl. by rewrite <- Hq.
Defined.

(** After node 1 re-registered, an update that still bears its old agent id
    is dropped and the queue of node 1 is intact; node 1 is reached under its
    new agent id. *)
Example stale_agent_update_dropped :
  handle_task_update (update_nodes busy_manager snapshot)
    {| update_task_id := "t"; update_agent_id := "a1"; update_status := FINISHED |}
  = (Ok tt, update_nodes busy_manager snapshot) /\
  _agent_ids (update_nodes busy_manager snapshot) !! "a1-new" = Some 1 /\
  (lnc_queue <$> _nodes (update_nodes busy_manager snapshot) !! 1)
  = Some [ {| exe_id := 10; node_id := 1 |} ].
Proof. split; [|split]; vm_compute; reflexivity. Qed.

(** *** Managers reached by sequences of calls *)

Section Calls.
Context {NC : Type} `{!NodeCleanupAPI NC} `{!NodeCleanupNext NC}.

Lemma update_nodes_nodes_lookup (self : CleanupManager NC) (S : list Node) (k : Z) :
  _nodes (update_nodes self S) !! k
  = match _nodes self !! k with
    | Some nc => Some nc
    | None => NodeCleanup_init <$> first_with_id k S
    end.
Proof. unfold update_nodes. by rewrite foldl_update_node_nodes. Qed.

Lemma dispatch_by_agent_nodes (self : CleanupManager NC) (agent : string)
    (f : NC -> NC) (k : Z) :
  _agent_ids (snd (dispatch_by_agent self agent f)) = _agent_ids self /\
  (is_Some (_nodes (snd (dispatch_by_agent self agent f)) !! k)
   <-> is_Some (_nodes self !! k)).
Proof.
  unfold dispatch_by_agent. destruct (_agent_ids self !! agent) as [n|]; [|done].
  destruct (_nodes self !! n) as [nc|] eqn:Hn; [|done]. cbn [snd _agent_ids _nodes].
  split; [done|]. destruct (decide (n = k)) as [<-|Hne].
  - rewrite lookup_insert_eq, Hn. split; intros _; by eexists.
  - by rewrite lookup_insert_ne.
Qed.

(** No call ever forgets a node, and every call keeps the agent map within
    the known nodes. *)
Lemma after_call_nodes (self : CleanupManager NC) (c : Call) (k : Z) :
  is_Some (_nodes self !! k) -> is_Some (_nodes (after_call self c) !! k).
Proof.
  intros Hk. destruct c as [job_exe| |task|task_update|nodes]; cbn [after_call].
  - unfold add_job_execution. destruct (_nodes self !! node_id job_exe) as [nc|] eqn:Hn; [|done].
    cbn [snd _nodes]. destruct (decide (node_id job_exe = k)) as [<-|Hne].
    + rewrite lookup_insert_eq. by eexists.
    + by rewrite lookup_insert_ne.
  - unfold get_next_tasks. cbn [snd _nodes]. rewrite lookup_fmap.
    destruct Hk as [nc ->]. by eexists.
  - by apply dispatch_by_agent_nodes.
  - by apply dispatch_by_agent_nodes.
  - rewrite update_nodes_nodes_lookup. destruct Hk as [nc ->]. by eexists.
Qed.

Lemma update_nodes_agents_known (self : CleanupManager NC) (S : list Node) :
  agents_known (update_nodes self S).
Proof.
  intros a n Ha. rewrite update_nodes_agent_ids in Ha.
  apply elem_of_list_to_map_2 in Ha. rewrite elem_of_reverse in Ha.
  unfold agent_pairs in Ha. apply list_elem_of_fmap in Ha as (s & Heq & Hs).
  inversion Heq; subst a n. rewrite update_nodes_nodes_lookup.
  destruct (_nodes self !! id s) as [nc|]; [by eexists|].
  destruct (first_with_id (id s) S) as [s0|] eqn:Hf; [by eexists|].
  apply first_with_id_None in Hf. exfalso. apply Hf. by apply list_elem_of_fmap_2.
Qed.

Lemma after_call_agents_known (self : CleanupManager NC) (c : Call) :
  agents_known self -> agents_known (after_call self c).
Proof.
  intros Hinv. destruct c as [job_exe| |task|task_update|nodes].
  - intros a n Ha. apply (after_call_nodes self (AddJobExecution job_exe)).
    apply (Hinv a). revert Ha. cbn [after_call]. unfold add_job_execution.
    by destruct (_nodes self !! node_id job_exe).
  - intros a n Ha. apply (after_call_nodes self GetNextTasks). by apply (Hinv a).
  - intros a n Ha. apply (after_call_nodes self (HandleTaskTimeout task)).
    apply (Hinv a). cbn [after_call] in Ha. unfold handle_task_timeout in Ha.
    by rewrite (proj1 (dispatch_by_agent_nodes self _ _ 0)) in Ha.
  - intros a n Ha. apply (after_call_nodes self (HandleTaskUpdate task_update)).
    apply (Hinv a). cbn [after_call] in Ha. unfold handle_task_update in Ha.
    by rewrite (proj1 (dispatch_by_agent_nodes self _ _ 0)) in Ha.
  - apply update_nodes_agents_known.
Qed.

Lemma after_calls_agents_known (cs : list Call) (self : CleanupManager NC) :
  agents_known self -> agents_known (after_calls self cs).
Proof.
  revert self. induction cs as [|c cs IH]; intros self Hinv; [done|].
  apply IH. by apply after_call_agents_known.
Qed.

Lemma after_calls_nodes (cs : list Call) (self : CleanupManager NC) (k : Z) :
  is_Some (_nodes self !! k) -> is_Some (_nodes (after_calls self cs) !! k).
Proof.
  revert self. induction cs as [|c cs IH]; intros self Hk; [done|].
  apply IH. by apply after_call_nodes.
Qed.

Lemma dispatch_known_agent_returns (self : CleanupManager NC) (agent : string)
    (f : NC -> NC) :
  agents_known self -> fst (dispatch_by_agent self agent f) = Ok tt.
Proof.
  intros Hinv. unfold dispatch_by_agent.
  destruct (_agent_ids self !! agent) as [n|] eqn:Ha; [|done].
  destruct (Hinv agent n Ha) as [nc ->]. done.
Qed.

End Calls.

(** X1: on a manager reached from [CleanupManager()] by any sequence of
    calls of its five public methods, every agent id is mapped to a node id
    that has a [NodeCleanup]; hence [handle_task_timeout] and
    [handle_task_update] never raise there: the subscript
    [self._nodes[node_id]] behind the agent guard cannot fail. *)
Theorem callbacks_never_raise
    {NC : Type} `{!NodeCleanupAPI NC} `{!NodeCleanupNext NC} (cs : list Call) :
  agents_known (after_calls (@init NC) cs) /\
  (forall task : Task, fst (handle_task_timeout (after_calls init cs) task) = Ok tt) /\
  (forall task_update : TaskStatusUpdate,
     fst (handle_task_update (after_calls init cs) task_update) = Ok tt).
Proof.
  assert (Hinv : agents_known (after_calls (@init NC) cs)).
  { apply after_calls_agents_known. intros a n Ha.
    unfold init in Ha. cbn [_agent_ids] in Ha. by rewrite lookup_empty in Ha. }
  split; [done|]. split.
  - intros task. by apply dispatch_known_agent_returns.
  - intros task_update. by apply dispatch_known_agent_returns.
Qed.

(** X2: once a node has been part of a snapshot given to [update_nodes],
    [add_job_execution] for an execution on that node returns without
    raising, whatever calls were made before and after the snapshot: the
    manager never drops a node. *)
Theorem add_job_execution_after_snapshot
    {NC : Type} `{!NodeCleanupAPI NC} `{!NodeCleanupNext NC}
    (self : CleanupManager NC) (before after : list Call) (S : list Node)
    (job_exe : RunningJobExecution) :
  node_id job_exe ∈ id <$> S ->
  fst (add_job_execution (after_calls self (before ++ UpdateNodes S :: after)) job_exe) = Ok tt.
Proof.
  intros Hin. unfold after_calls. rewrite foldl_app. cbn [foldl after_call].
  fold (after_calls self before).
  fold (after_calls (update_nodes (after_calls self before) S) after).
  assert (Hk : is_Some (_nodes (update_nodes (after_calls self before) S) !! node_id job_exe)).
  { rewrite update_nodes_nodes_lookup.
    destruct (_nodes (after_calls self before) !! node_id job_exe); [by eexists|].
    destruct (first_with_id (node_id job_exe) S) as [s0|] eqn:Hf; [by eexists|].
    apply first_with_id_None in Hf. done. }
  apply (after_calls_nodes after) in Hk. destruct Hk as [nc Hnc].
  unfold add_job_execution. by rewrite Hnc.
Qed.

Lemma add_job_execution_after_snapshot_witness :
  fst (add_job_execution
         (after_calls one_node_manager
            ([GetNextTasks] ++ UpdateNodes snapshot
               :: [HandleTaskTimeout {| task_id := "cleanup"; task_agent_id := "a2" |};
                   UpdateNodes []]))
         {| exe_id := 11; node_id := 2 |})
  = Ok tt.
Proof.
  apply add_job_execution_after_snapshot.
  apply list_elem_of_In. simpl. tauto.
Defined.

(** X3: two snapshots in a row leave the agent map of the second alone and
    the nodes of both: [update_nodes(S1); update_nodes(S2)] gives the agent
    map of [update_nodes(S2)] and the node dictionary of
    [update_nodes(S1 + S2)]; giving the same snapshot twice changes nothing
    the second time. *)
Theorem update_nodes_twice
    {NC : Type} `{!NodeCleanupAPI NC} (self : CleanupManager NC) (S1 S2 : list Node) :
  _agent_ids (update_nodes (update_nodes self S1) S2) = _agent_ids (update_nodes self S2) /\
  _nodes (update_nodes (update_nodes self S1) S2) = _nodes (update_nodes self (S1 ++ S2)) /\
  update_nodes (update_nodes self S1) S1 = update_nodes self S1.
Proof.
  assert (Hfind : forall k (A B : list Node),
            first_with_id k (A ++ B)
            = match first_with_id k A with Some n => Some n | None => first_with_id k B end).
  { intros k A B. unfold first_with_id. induction A as [|n A IH]; [done|].
    cbn [app List.find]. by destruct (bool_decide (id n = k)). }
  assert (Hnodes : forall A B, _nodes (update_nodes (update_nodes self A) B)
                               = _nodes (update_nodes self (A ++ B))).
  { intros A B. apply map_eq. intros k. rewrite !update_nodes_nodes_lookup, Hfind.
    destruct (_nodes self !! k); [done|]. by destruct (first_with_id k A). }
  split; [by rewrite !update_nodes_agent_ids|]. split; [apply Hnodes|].
  assert (Hsame : _nodes (update_nodes (update_nodes self S1) S1) = _nodes (update_nodes self S1)).
  { rewrite Hnodes. apply map_eq. intros k. rewrite !update_nodes_nodes_lookup, Hfind.
    destruct (_nodes self !! k); [done|]. by destruct (first_with_id k S1). }
  pose proof (update_nodes_agent_ids (update_nodes self S1) S1) as Ha1.
  pose proof (update_nodes_agent_ids self S1) as Ha2.
  destruct (update_nodes (update_nodes self S1) S1) as [a1 n1].
  destruct (update_nodes self S1) as [a2 n2].
  cbn [_agent_ids _nodes] in *. congruence.
Qed.

Lemma omap_length_le {A B} (f : A -> option B) (l : list A) :
  (length (omap f l) <= length l)%nat.
Proof.
  induction l as [|x l IH]; [done|]. cbn [omap list_omap].
  destruct (f x); cbn [length]; lia.
Qed.

Lemma asked_sublist {NC : Type} `{!NodeCleanupNext NC} (l : list (Z * NC)) :
  omap (fun entry => (fun _ => fst entry) <$> fst (nc_get_next_task (snd entry))) l
  `sublist_of` fst <$> l.
Proof.
  induction l as [|entry l IH]; [done|]. cbn [omap list_omap]. rewrite fmap_cons.
  destruct (fst (nc_get_next_task (snd entry))); cbn [fmap option_fmap option_map].
  - by apply sublist_skip.
  - by apply sublist_cons.
Qed.

Lemma asked_tasks {NC : Type} `{!NodeCleanupNext NC} (l : list (Z * NC)) :
  Forall2 (fun k t => exists node, (k, node) ∈ l /\ fst (nc_get_next_task node) = Some t)
    (omap (fun entry => (fun _ => fst entry) <$> fst (nc_get_next_task (snd entry))) l)
    (omap (fun entry => fst (nc_get_next_task (snd entry))) l).
Proof.
  induction l as [|[k node] l IH]; [constructor|]. cbn [omap list_omap fst snd].
  assert (Htail : Forall2
            (fun k0 t => exists node0, (k0, node0) ∈ (k, node) :: l /\
                                       fst (nc_get_next_task node0) = Some t)
            (omap (fun entry => (fun _ => fst entry) <$> fst (nc_get_next_task (snd entry))) l)
            (omap (fun entry => fst (nc_get_next_task (snd entry))) l)).
  { eapply Forall2_impl; [exact IH|]. intros k0 t (node0 & Hin & Ht).
    exists node0. split; [by apply list_elem_of_further|done]. }
  destruct (fst (nc_get_next_task node)) as [t|] eqn:Hnext;
    cbn [fmap option_fmap option_map]; [|exact Htail].
  constructor; [|exact Htail]. exists node. split; [apply list_elem_of_here|done].
Qed.

(** X4: [get_next_tasks] returns exactly one task for each known node whose
    [get_next_task()] is not [None], and nothing else: the returned list
    matches, entry by entry, a list without repetition of the ids of just
    these nodes, each entry being the task of its node.  Each node's cleanup
    is replaced by what [get_next_task()] left, and neither the agent map nor
    the set of known nodes changes. *)
Theorem get_next_tasks_spec
    {NC : Type} `{!NodeCleanupNext NC} (self : CleanupManager NC) :
  (exists asked : list Z,
     NoDup asked /\
     (forall k, k ∈ asked
        <-> exists node t, _nodes self !! k = Some node /\
                           fst (nc_get_next_task node) = Some t) /\
     Forall2 (fun k t => exists node, _nodes self !! k = Some node /\
                                      fst (nc_get_next_task node) = Some t)
       asked (fst (get_next_tasks self))) /\
  (forall t, t ∈ fst (get_next_tasks self)
     <-> exists k node, _nodes self !! k = Some node /\ fst (nc_get_next_task node) = Some t) /\
  (length (fst (get_next_tasks self)) <= size (_nodes self))%nat /\
  _agent_ids (snd (get_next_tasks self)) = _agent_ids self /\
  (forall k, _nodes (snd (get_next_tasks self)) !! k
             = (fun node => snd (nc_get_next_task node)) <$> _nodes self !! k) /\
  dom (_nodes (snd (get_next_tasks self))) = dom (_nodes self).
Proof.
  unfold get_next_tasks. cbn [fst snd _agent_ids _nodes].
  split; [|split; [|split; [|split; [done|split]]]].
  - exists (omap (fun entry => (fun _ => fst entry) <$> fst (nc_get_next_task (snd entry)))
              (map_to_list (_nodes self))).
    split; [|split].
    + apply (sublist_NoDup _ (fst <$> map_to_list (_nodes self)));
        [apply NoDup_fst_map_to_list|apply asked_sublist].
    + intros k. rewrite list_elem_of_omap. split.
      * intros ([k' node] & Hin & Hk). cbn [fst snd] in Hk.
        apply elem_of_map_to_list in Hin.
        destruct (fst (nc_get_next_task node)) as [t|] eqn:Hnext; [|done].
        inversion Hk; subst k'. by exists node, t.
      * intros (node & t & Hk & Hnext). exists (k, node).
        split; [by apply elem_of_map_to_list|]. cbn [fst snd]. by rewrite Hnext.
    + eapply Forall2_impl; [apply asked_tasks|].
      intros k t (node & Hin & Hnext). exists node.
      split; [by apply elem_of_map_to_list|done].
  - intros t. rewrite list_elem_of_omap. split.
    + intros ([k node] & Hin & Ht). apply elem_of_map_to_list in Hin. by exists k, node.
    + intros (k & node & Hk & Ht). exists (k, node). split; [|done].
      by apply elem_of_map_to_list.
  - rewrite <- length_map_to_list. apply omap_length_le.
  - intros k. by rewrite lookup_fmap.
  - by rewrite dom_fmap_L.
Qed.

End CleanupProofs.

(** ** Docker volume parameters *)

Module VolumeProofs.
Import Volume.





End VolumeProofs.

(** ** The scheduling thread *)

Module ScheduleProofs.
Import Schedule.

Section Generic.
Context {OM : Type} `{!OfferManagerAPI OM}.

Lemma log_calls_nil (s : State OM) : log_calls [] s = s.
Proof. destruct s. unfold log_calls. simpl. by rewrite app_nil_r. Qed.

Lemma log_calls_app (es1 es2 : list Event) (s : State OM) :
  log_calls es2 (log_calls es1 s) = log_calls (es1 ++ es2) s.
Proof. unfold log_calls. simpl. by rewrite app_assoc. Qed.

Lemma last_cons_Some {A} (x y : A) (l : list A) :
  last l = Some y -> last (x :: l) = Some y.
Proof. destruct l; [done|]. done. Qed.

(** The loop over the queue, from any count below the cap. *)
Lemma consider_queue_spec (entries : list Queue) (n : Z) (s : State OM) :
  n < MAX_NEW_JOB_EXES ->
  exists (offered : list (QueuedJobExecution * Z)) (om : OM) (pre suf : list Queue),
    consider_queue entries n s
    = (Ok tt, log_calls (uncurry ConsiderNewJobExe <$> offered) (with_offer_manager om s)) /\
    entries = pre ++ suf /\
    fst <$> offered = Build_QueuedJobExecution <$> List.filter (eligible (_job_types s)) pre /\
    ask_in_turn (fst <$> offered) (_offer_manager s) = (offered, om) /\
    n + accepted_count offered <= MAX_NEW_JOB_EXES /\
    (suf <> [] -> n + accepted_count offered = MAX_NEW_JOB_EXES) /\
    (n + accepted_count offered = MAX_NEW_JOB_EXES ->
       exists entry, last pre = Some entry /\
                     last offered = Some (Build_QueuedJobExecution entry, ACCEPTED)).
Proof.
  revert n s. induction entries as [|entry rest IH]; intros n s Hn.
  - exists [], (_offer_manager s), [], []. simpl.
    split; [|split; [done|split; [done|split; [done|]]]].
    + unfold ret. f_equal. destruct s. unfold log_calls, with_offer_manager. simpl.
      by rewrite app_nil_r.
    + unfold accepted_count. simpl. split; [lia|]. split; [done|lia].
  - cbn [consider_queue].
    destruct (_job_types s !! job_type_id entry) as [job_type|] eqn:Hjt;
      [destruct (is_paused job_type) eqn:Hp|].
    + (* paused job type: continue *)
      destruct (IH n s Hn)
        as (offered & om & pre & suf & Hrun & -> & Hoff & Hask & Hle & Hsuf & Hlast).
      exists offered, om, (entry :: pre), suf. rewrite Hrun.
      split; [done|]. split; [done|]. split; [|split; [done|split; [done|split; [done|]]]].
      * cbn [List.filter]. unfold eligible at 1. by rewrite Hjt, Hp.
      * intros Hmax. destruct (Hlast Hmax) as (e & Hl & Ho). exists e.
        split; [by apply last_cons_Some|done].
    + (* offered to the offer manager *)
      unfold bind at 1. unfold on_offer_manager at 1.
      unfold bind at 1. unfold emit at 1.
      set (job_exe := {| queue := entry |}).
      set (answer := fst (consider_new_job_exe job_exe (_offer_manager s))).
      set (om1 := snd (consider_new_job_exe job_exe (_offer_manager s))).
      set (s1 := log_calls [ConsiderNewJobExe job_exe answer] (with_offer_manager om1 s)).
      assert (Hs1 : forall om es,
                 log_calls es (with_offer_manager om s1)
                 = log_calls (ConsiderNewJobExe job_exe answer :: es) (with_offer_manager om s)).
      { intros om es. unfold s1, log_calls, with_offer_manager. simpl.
        by rewrite <- app_assoc. }
      assert (Hel : eligible (_job_types s) entry = true).
      { unfold eligible. by rewrite Hjt, Hp. }
      destruct (answer =? ACCEPTED) eqn:Hans.
      * destruct (n + 1 >=? MAX_NEW_JOB_EXES) eqn:Hcap.
        -- (* break *)
           exists [(job_exe, answer)], om1, [entry], rest.
           split; [done|]. split; [done|]. split; [by cbn [List.filter]; rewrite Hel|].
           split; [done|].
           unfold accepted_count. cbn [List.filter snd]. rewrite Hans. cbn [length].
           apply Z.eqb_eq in Hans. rewrite Hans.
           split; [lia|]. split; [lia|]. intros _. by exists entry.
        -- destruct (IH (n + 1) s1)
             as (offered & om & pre & suf & Hrun & -> & Hoff & Hask & Hle & Hsuf & Hlast);
             [lia|].
           exists ((job_exe, answer) :: offered), om, (entry :: pre), suf.
           rewrite Hrun, Hs1.
           assert (Hcount : accepted_count ((job_exe, answer) :: offered)
                            = 1 + accepted_count offered).
           { unfold accepted_count. cbn [List.filter snd]. rewrite Hans. cbn [length]. lia. }
           rewrite Hcount.
           split; [done|]. split; [done|].
           split; [|split; [|split; [lia|split; [intros ?; rewrite <- Hsuf by done; lia|]]]].
           ++ cbn [List.filter]. rewrite Hel. rewrite !fmap_cons. by rewrite Hoff.
           ++ rewrite fmap_cons. cbn [ask_in_turn fst]. fold answer om1.
              change (_offer_manager s1) with om1 in Hask. by rewrite Hask.
           ++ intros Hmax. destruct Hlast as (e & Hl & Ho); [lia|]. exists e.
              split; [by apply last_cons_Some|by apply last_cons_Some].
      * destruct (IH n s1 Hn)
          as (offered & om & pre & suf & Hrun & -> & Hoff & Hask & Hle & Hsuf & Hlast).
        exists ((job_exe, answer) :: offered), om, (entry :: pre), suf.
        rewrite Hrun, Hs1.
        assert (Hcount : accepted_count ((job_exe, answer) :: offered) = accepted_count offered).
        { unfold accepted_count. cbn [List.filter snd]. by rewrite Hans. }
        rewrite Hcount.
        split; [done|]. split; [done|]. split; [|split; [|split; [done|split; [done|]]]].
        ++ cbn [List.filter]. rewrite Hel. rewrite !fmap_cons. by rewrite Hoff.
        ++ rewrite fmap_cons. cbn [ask_in_turn fst]. fold answer om1.
           change (_offer_manager s1) with om1 in Hask. by rewrite Hask.
        ++ intros Hmax. destruct (Hlast Hmax) as (e & Hl & Ho). exists e.
           split; [by apply last_cons_Some|by apply last_cons_Some].
    + (* job type not in the snapshot: continue *)
      destruct (IH n s Hn)
        as (offered & om & pre & suf & Hrun & -> & Hoff & Hask & Hle & Hsuf & Hlast).
      exists offered, om, (entry :: pre), suf. rewrite Hrun.
      split; [done|]. split; [done|]. split; [|split; [done|split; [done|split; [done|]]]].
      * cbn [List.filter]. unfold eligible at 1. by rewrite Hjt.
      * intros Hmax. destruct (Hlast Hmax) as (e & Hl & Ho). exists e.
        split; [by apply last_cons_Some|done].
Qed.

Lemma decline_offers_spec (node_offers_list : list NodeOffers) (s : State OM) :
  decline_offers node_offers_list s
  = (Ok tt, log_calls (DeclineOffer <$> concat (offer_ids <$> node_offers_list)) s).
Proof.
  unfold decline_offers.
  generalize (concat (offer_ids <$> node_offers_list)) as ids.
  intros ids. revert s. induction ids as [|offer_id ids IH]; intros s.
  - simpl. unfold ret. by rewrite log_calls_nil.
  - cbn [foldr]. unfold bind at 1, emit at 1. rewrite IH, log_calls_app. done.
Qed.

(** *** The retried scheduling query *)

Lemma retry_log_succ (batch : list QueuedJobExecution) (k : nat) (d mx : Z) :
  (1 <= k)%nat ->
  retry_log batch (S k) d mx
  = ScheduleJobExecutions batch :: RetryDelay d :: retry_log batch k (Z.min (2 * d) mx) mx.
Proof. destruct k; [lia|]. reflexivity. Qed.

Lemma retry_spec (round : Round) (batch : list QueuedJobExecution)
    (n : nat) (d mx : Z) (a : nat) (s : State OM) :
  (1 <= n)%nat ->
  exists k : nat,
    (1 <= k <= n)%nat /\
    retry_database_query n d mx a (schedule_query round batch) s
    = (schedule_job_executions round (a + k - 1)%nat batch,
       log_calls (retry_log batch k d mx) s) /\
    (forall i, (i < k - 1)%nat ->
       schedule_job_executions round (a + i)%nat batch = Raise OperationalError) /\
    ((k < n)%nat ->
       schedule_job_executions round (a + k - 1)%nat batch <> Raise OperationalError).
Proof.
  revert d a s. induction n as [|m IH]; intros d a s Hn; [lia|].
  cbn [retry_database_query].
  unfold schedule_query at 1, bind at 1, emit at 1.
  destruct (schedule_job_executions round a batch) as [r|e] eqn:Ha.
  - exists 1%nat. replace (a + 1 - 1)%nat with a by lia. rewrite Ha.
    split; [lia|]. split; [done|]. split; [intros i Hi; lia|]. intros _. done.
  - destruct (decide (e = OperationalError)) as [->|Hne].
    + destruct m as [|m'].
      * exists 1%nat. replace (a + 1 - 1)%nat with a by lia. rewrite Ha.
        split; [lia|]. split; [done|]. split; [intros i Hi; lia|]. lia.
      * unfold bind at 1, emit at 1.
        destruct (IH (Z.min (2 * d) mx) (S a)
                    (log_calls [RetryDelay d] (log_calls [ScheduleJobExecutions batch] s)))
          as (k & Hk & Hrun & Hfail & Hstop); [lia|].
        exists (S k). split; [lia|]. rewrite Hrun.
        replace (a + S k - 1)%nat with (S a + k - 1)%nat by lia.
        split; [|split].
        -- rewrite !log_calls_app, retry_log_succ by lia. done.
        -- intros i Hi. destruct i as [|i]; [by rewrite Nat.add_0_r|].
           replace (a + S i)%nat with (S a + i)%nat by lia. apply Hfail. lia.
        -- intros Hlt. apply Hstop. lia.
    + exists 1%nat. replace (a + 1 - 1)%nat with a by lia. rewrite Ha.
      split; [lia|]. split; [by destruct e|]. split; [intros i Hi; lia|].
      intros _. congruence.
Qed.

Lemma retry_log_delays (batch : list QueuedJobExecution) (k : nat) (d : Z) :
  1000 <= d <= 5000 ->
  Forall (fun ms => 1000 <= ms <= 5000) (retry_delays (retry_log batch k d 5000)) /\
  length (schedule_calls (retry_log batch k d 5000)) = k /\
  length (retry_delays (retry_log batch k d 5000)) = (k - 1)%nat /\
  launches (retry_log batch k d 5000) = [].
Proof.
  revert d. induction k as [|k IH]; intros d Hd.
  - simpl. split; [constructor|done].
  - destruct k as [|k'].
    + simpl. split; [constructor|done].
    + rewrite retry_log_succ by lia.
      destruct (IH (Z.min (2 * d) 5000)) as (Hall & Hlen & Hlen' & Hl); [lia|].
      set (rest := retry_log batch (S k') (Z.min (2 * d) 5000) 5000) in *.
      change (retry_delays (ScheduleJobExecutions batch :: RetryDelay d :: rest))
        with (d :: retry_delays rest).
      change (schedule_calls (ScheduleJobExecutions batch :: RetryDelay d :: rest))
        with (batch :: schedule_calls rest).
      change (launches (ScheduleJobExecutions batch :: RetryDelay d :: rest))
        with (launches rest).
      split; [constructor; [lia|done]|]. cbn [length]. rewrite Hlen, Hlen'.
      split; [done|]. split; [lia|done].
Qed.

Lemma retry_all_fail (round : Round) (batch : list QueuedJobExecution) (s : State OM) :
  (forall attempt, (attempt < 5)%nat ->
     schedule_job_executions round attempt batch = Raise OperationalError) ->
  _schedule_queued_job_executions round batch s
  = (Raise OperationalError, log_calls (retry_log batch 5 1000 5000) s).
Proof.
  intros Hfail. unfold _schedule_queued_job_executions.
  destruct (retry_spec round batch 5 1000 5000 0 s) as (k & Hk & Hrun & _ & Hstop); [lia|].
  rewrite Hrun.
  assert (k = 5%nat) as ->.
  { destruct (decide (k < 5)%nat) as [Hlt|]; [|lia].
    exfalso. apply (Hstop Hlt). apply Hfail. lia. }
  rewrite Hfail by lia. done.
Qed.

(** *** The three loops of [_schedule_accepted_tasks] *)

Lemma running_tasks_all_tasks (node_offers : NodeOffers) :
  None ∉ running_tasks node_offers.
Proof.
  unfold running_tasks.
  assert (H : forall exes acc, None ∉ acc ->
            None ∉ foldl (fun node_tasks running_job_exe =>
                            match start_next_task running_job_exe with
                            | Some task => node_tasks ++ [Some task]
                            | None => node_tasks
                            end) acc exes).
  { induction exes as [|exe exes IH]; intros acc Hacc; [done|].
    cbn [foldl]. apply IH. destruct (start_next_task exe); [|done].
    rewrite elem_of_app, list_elem_of_singleton. intros [?|?]; [done|discriminate]. }
  apply H, not_elem_of_nil.
Qed.

Lemma foldl_gather (l : list NodeOffers)
    (m : gmap Z (list (option Task))) (q : list QueuedJobExecution) :
  foldl gather (m, q) l
  = (foldl (fun m node_offers => <[id (node node_offers) := running_tasks node_offers]> m) m l,
     q ++ queued_batch l).
Proof.
  revert m q. induction l as [|node_offers l IH]; intros m q.
  - simpl. by rewrite app_nil_r.
  - cbn [foldl]. unfold gather at 2. cbn [fst snd]. rewrite IH.
    unfold queued_batch. rewrite fmap_cons. cbn [concat]. by rewrite app_assoc.
Qed.

Lemma foldl_insert_running_notin (l : list NodeOffers) (m : gmap Z (list (option Task))) (k : Z) :
  k ∉ node_ids l ->
  foldl (fun m node_offers => <[id (node node_offers) := running_tasks node_offers]> m) m l !! k
  = m !! k.
Proof.
  revert m. induction l as [|node_offers l IH]; intros m Hk; [done|].
  unfold node_ids in Hk. rewrite fmap_cons, not_elem_of_cons in Hk. destruct Hk as [Hne Hk].
  cbn [foldl]. rewrite IH by done. by rewrite lookup_insert_ne.
Qed.

Lemma foldl_insert_running_in (l : list NodeOffers) (m : gmap Z (list (option Task)))
    (node_offers : NodeOffers) :
  NoDup (node_ids l) -> node_offers ∈ l ->
  foldl (fun m node_offers => <[id (node node_offers) := running_tasks node_offers]> m) m l
    !! id (node node_offers)
  = Some (running_tasks node_offers).
Proof.
  revert m. induction l as [|first l IH]; intros m Hnd Hin; [by apply elem_of_nil in Hin|].
  unfold node_ids in Hnd. rewrite fmap_cons in Hnd. apply NoDup_cons in Hnd as [Hfirst Hnd].
  cbn [foldl]. apply elem_of_cons in Hin as [->|Hin].
  - rewrite foldl_insert_running_notin by done. by rewrite lookup_insert_eq.
  - by apply IH.
Qed.

Lemma launch_spec (tasks_of : NodeOffers -> list (option Task)) (l : list NodeOffers)
    (tasks_to_launch : gmap Z (list (option Task))) (n : Z) (s : State OM) :
  (forall node_offers, node_offers ∈ l ->
     tasks_to_launch !! id (node node_offers) = Some (tasks_of node_offers)) ->
  launch l tasks_to_launch n s
  = (Ok (n + task_total tasks_of l), log_calls (launch_calls tasks_of l) s).
Proof.
  revert n s. induction l as [|node_offers l IH]; intros n s Hl.
  - simpl. unfold ret. by rewrite Z.add_0_r, log_calls_nil.
  - cbn [launch]. rewrite (Hl node_offers) by apply list_elem_of_here.
    unfold bind at 1, emit at 1. rewrite IH.
    + rewrite log_calls_app. unfold task_total, launch_calls. rewrite fmap_cons.
      cbn [foldr]. f_equal. f_equal. lia.
    + intros no Hno. apply Hl. by apply list_elem_of_further.
Qed.

Lemma start_scheduled_spec (scheduled : list RunningJobExecution)
    (tasks_to_launch : gmap Z (list (option Task))) :
  (forall exe, exe ∈ scheduled -> is_Some (tasks_to_launch !! node_id exe)) ->
  exists tasks_to_launch',
    start_scheduled scheduled tasks_to_launch = (Ok tt, tasks_to_launch') /\
    forall k, tasks_to_launch' !! k
              = (fun node_tasks => node_tasks ++ (start_next_task <$> scheduled_on k scheduled))
                  <$> tasks_to_launch !! k.
Proof.
  revert tasks_to_launch. induction scheduled as [|exe rest IH]; intros ttl Hdom.
  - exists ttl. split; [done|]. intros k. simpl.
    destruct (ttl !! k); simpl; [by rewrite app_nil_r|done].
  - cbn [start_scheduled].
    destruct (Hdom exe) as [node_tasks Hnt]; [apply list_elem_of_here|]. rewrite Hnt.
    destruct (IH (<[node_id exe := node_tasks ++ [start_next_task exe]]> ttl))
      as (ttl' & Hrun & Hl).
    + intros exe' Hexe'. destruct (decide (node_id exe = node_id exe')) as [Heq|Hne].
      * rewrite <- Heq, lookup_insert_eq. by eexists.
      * rewrite lookup_insert_ne by done. apply Hdom. by apply list_elem_of_further.
    + exists ttl'. split; [done|]. intros k. rewrite Hl.
      unfold scheduled_on. cbn [List.filter].
      destruct (decide (node_id exe = k)) as [<-|Hne].
      * rewrite lookup_insert_eq, Hnt, Z.eqb_refl. simpl.
        by rewrite <- app_assoc.
      * rewrite lookup_insert_ne by done.
        apply Z.eqb_neq in Hne. by rewrite Hne.
Qed.

Lemma launch_list_cons_length (exe : RunningJobExecution)
    (rest : list RunningJobExecution) (node_offers : NodeOffers) :
  Z.of_nat (length (launch_list (exe :: rest) node_offers))
  = (if node_id exe =? id (node node_offers) then 1 else 0)
    + Z.of_nat (length (launch_list rest node_offers)).
Proof.
  unfold launch_list, scheduled_on. cbn [List.filter].
  destruct (node_id exe =? id (node node_offers)).
  - rewrite fmap_cons, !length_app. cbn [length]. lia.
  - lia.
Qed.

Lemma task_total_cons_scheduled (exe : RunningJobExecution)
    (rest : list RunningJobExecution) (l : list NodeOffers) :
  NoDup (node_ids l) -> node_id exe ∈ node_ids l ->
  task_total (launch_list (exe :: rest)) l = 1 + task_total (launch_list rest) l.
Proof.
  unfold task_total.
  assert (Hout : forall l', node_id exe ∉ node_ids l' ->
            foldr (fun node_offers n =>
                     Z.of_nat (length (launch_list (exe :: rest) node_offers)) + n) 0 l'
            = foldr (fun node_offers n =>
                     Z.of_nat (length (launch_list rest node_offers)) + n) 0 l').
  { induction l' as [|no' l' IHl']; intros Hnotin; [done|].
    unfold node_ids in Hnotin. rewrite fmap_cons in Hnotin.
    apply not_elem_of_cons in Hnotin as [Hne Hnotin]. cbn [foldr].
    rewrite launch_list_cons_length, IHl' by done.
    apply Z.eqb_neq in Hne. rewrite Hne. lia. }
  induction l as [|no l IHl]; intros Hnd Hexe; [by apply elem_of_nil in Hexe|].
  unfold node_ids in Hnd, Hexe. rewrite fmap_cons in Hnd, Hexe.
  apply NoDup_cons in Hnd as [Hno Hnd]. cbn [foldr].
  rewrite launch_list_cons_length.
  destruct (decide (node_id exe = id (node no))) as [Heq|Hne].
  - rewrite Heq, Z.eqb_refl. rewrite Hout; [lia|]. by rewrite Heq.
  - apply Z.eqb_neq in Hne as Hne'. rewrite Hne'.
    apply elem_of_cons in Hexe as [?|Hexe]; [done|].
    rewrite (IHl Hnd Hexe). lia.
Qed.

Lemma scheduled_on_total (l : list NodeOffers) (scheduled : list RunningJobExecution) :
  NoDup (node_ids l) ->
  (forall exe, exe ∈ scheduled -> node_id exe ∈ node_ids l) ->
  task_total (launch_list scheduled) l
  = task_total running_tasks l + Z.of_nat (length scheduled).
Proof.
  intros Hnd. induction scheduled as [|exe rest IH]; intros Hin.
  - simpl. rewrite Z.add_0_r. clear Hnd Hin. unfold task_total, launch_list.
    induction l as [|no l IHl]; [done|]. cbn [foldr]. simpl.
    rewrite app_nil_r. f_equal. apply IHl.
  - rewrite task_total_cons_scheduled, IH.
    + cbn [length]. lia.
    + intros e He. apply Hin. by apply list_elem_of_further.
    + done.
    + apply Hin. apply list_elem_of_here.
Qed.

Lemma launches_launch_calls (tasks_of : NodeOffers -> list (option Task))
    (l : list NodeOffers) :
  launches (launch_calls tasks_of l)
  = (fun node_offers => (offer_ids node_offers, tasks_of node_offers)) <$> l.
Proof.
  unfold launches, launch_calls. induction l as [|no l IH]; [done|].
  rewrite !fmap_cons. cbn [omap list_omap]. by rewrite <- IH.
Qed.

Lemma gathered_lookup (l : list NodeOffers) (node_offers : NodeOffers) :
  NoDup (node_ids l) -> node_offers ∈ l ->
  fst (foldl gather (∅, []) l) !! id (node node_offers) = Some (running_tasks node_offers).
Proof.
  intros Hnd Hin. rewrite foldl_gather. cbn [fst].
  by apply foldl_insert_running_in.
Qed.

Lemma gathered_batch (l : list NodeOffers) :
  snd (foldl gather (∅, []) l) = queued_batch l.
Proof. by rewrite foldl_gather. Qed.

Lemma schedule_accepted_tasks_unfold (round : Round) (s : State OM)
    (node_offers_list : list NodeOffers) (om' : OM) :
  pop_offers_with_accepted_job_exes (_offer_manager s) = (node_offers_list, om') ->
  _schedule_accepted_tasks round s
  = match _schedule_queued_job_executions round (queued_batch node_offers_list)
            (with_offer_manager om' s) with
    | (Ok scheduled_job_exes, s1) =>
        match start_scheduled scheduled_job_exes (fst (foldl gather (∅, []) node_offers_list)) with
        | (Ok _, tasks_to_launch) =>
            launch node_offers_list tasks_to_launch 0
              (with_job_exes (_job_exe_manager s1 ++ scheduled_job_exes) s1)
        | (Raise e, _) =>
            (Raise e, with_job_exes (_job_exe_manager s1 ++ scheduled_job_exes) s1)
        end
    | (Raise OperationalError, s1) =>
        launch node_offers_list (fst (foldl gather (∅, []) node_offers_list)) 0 s1
    | (Raise e, s1) => (Raise e, s1)
    end.
Proof.
  intros Hpop. unfold _schedule_accepted_tasks, bind at 1, on_offer_manager.
  rewrite Hpop. cbn [fst snd]. rewrite gathered_batch.
  destruct (_schedule_queued_job_executions round (queued_batch node_offers_list)
              (with_offer_manager om' s)) as [[scheduled|e] s1]; [|done].
  unfold bind, add_job_exes. done.
Qed.

(** *** Every outcome of [_schedule_accepted_tasks] *)

Lemma foldl_insert_running_dom (l : list NodeOffers) (m : gmap Z (list (option Task)))
    (k : Z) :
  is_Some (foldl (fun m node_offers =>
                    <[id (node node_offers) := running_tasks node_offers]> m) m l !! k)
  <-> k ∈ node_ids l \/ is_Some (m !! k).
Proof.
  revert m. induction l as [|no l IH]; intros m.
  - cbn [foldl]. unfold node_ids. rewrite fmap_nil, elem_of_nil. tauto.
  - cbn [foldl]. rewrite IH. unfold node_ids. rewrite fmap_cons, elem_of_cons.
    fold (node_ids l). destruct (decide (id (node no) = k)) as [<-|Hne].
    + rewrite lookup_insert_eq. split; [auto|]. intros _. right. by eexists.
    + rewrite lookup_insert_ne by done. split; [tauto|].
      intros [[?|?]|?]; [congruence|auto|auto].
Qed.

Lemma gathered_dom (l : list NodeOffers) (k : Z) :
  is_Some (fst (foldl gather (∅, []) l) !! k) <-> k ∈ node_ids l.
Proof.
  rewrite foldl_gather. cbn [fst]. rewrite foldl_insert_running_dom, lookup_empty.
  split; [intros [?|[? ?]]; done|auto].
Qed.

Lemma start_scheduled_cases (scheduled : list RunningJobExecution)
    (tasks_to_launch : gmap Z (list (option Task))) :
  (exists tasks_to_launch',
     start_scheduled scheduled tasks_to_launch = (Ok tt, tasks_to_launch') /\
     (forall exe, exe ∈ scheduled -> is_Some (tasks_to_launch !! node_id exe)) /\
     forall k, is_Some (tasks_to_launch' !! k) <-> is_Some (tasks_to_launch !! k)) \/
  (exists tasks_to_launch' exe,
     start_scheduled scheduled tasks_to_launch = (Raise KeyError, tasks_to_launch') /\
     exe ∈ scheduled /\ tasks_to_launch !! node_id exe = None).
Proof.
  revert tasks_to_launch. induction scheduled as [|exe rest IH]; intros ttl.
  - left. exists ttl. split; [done|]. split; [|done].
    intros exe Hexe. by apply elem_of_nil in Hexe.
  - cbn [start_scheduled]. destruct (ttl !! node_id exe) as [node_tasks|] eqn:Hexe.
    2:{ right. exists ttl, exe. split; [done|]. split; [apply list_elem_of_here|done]. }
    assert (Hdom : forall k, is_Some (<[node_id exe := node_tasks ++ [start_next_task exe]]> ttl !! k)
                             <-> is_Some (ttl !! k)).
    { intros k. destruct (decide (node_id exe = k)) as [<-|Hne].
      - rewrite lookup_insert_eq, Hexe. split; intros _; by eexists.
      - by rewrite lookup_insert_ne. }
    destruct (IH (<[node_id exe := node_tasks ++ [start_next_task exe]]> ttl))
      as [(ttl' & Hrun & Hall & Hdom')|(ttl' & bad & Hrun & Hbad & Hnone)].
    + left. exists ttl'. split; [done|]. split.
      * intros e He. apply elem_of_cons in He as [->|He]; [by eexists|].
        apply Hdom. by apply Hall.
      * intros k. by rewrite Hdom', Hdom.
    + right. exists ttl', bad. split; [done|]. split; [by apply list_elem_of_further|].
      apply eq_None_not_Some. intros Hs. apply Hdom in Hs.
      rewrite Hnone in Hs. by destruct Hs.
Qed.

Lemma launch_total (l : list NodeOffers)
    (tasks_to_launch : gmap Z (list (option Task))) (n : Z) (s : State OM) :
  (forall node_offers, node_offers ∈ l ->
     is_Some (tasks_to_launch !! id (node node_offers))) ->
  launch l tasks_to_launch n s
  = (Ok (n + task_total (tasks_in tasks_to_launch) l),
     log_calls (launch_calls (tasks_in tasks_to_launch) l) s).
Proof.
  intros Hdom. apply launch_spec. intros no Hno. unfold tasks_in.
  destruct (Hdom no Hno) as [ts ->]. done.
Qed.

Lemma task_total_concat (tasks_of : NodeOffers -> list (option Task))
    (l : list NodeOffers) :
  task_total tasks_of l = Z.of_nat (length (concat (tasks_of <$> l))).
Proof.
  unfold task_total. induction l as [|no l IH]; [done|].
  rewrite fmap_cons. cbn [foldr concat]. rewrite length_app, IH. lia.
Qed.

Lemma considered_retry_log (batch : list QueuedJobExecution) (k : nat) (d mx : Z) :
  considered (retry_log batch k d mx) = [].
Proof.
  revert d. induction k as [|k IH]; intros d; [done|].
  destruct k as [|k']; [done|].
  change (retry_log batch (S (S k')) d mx)
    with (ScheduleJobExecutions batch :: RetryDelay d
            :: retry_log batch (S k') (Z.min (2 * d) mx) mx).
  change (considered (ScheduleJobExecutions batch :: RetryDelay d
                        :: retry_log batch (S k') (Z.min (2 * d) mx) mx))
    with (considered (retry_log batch (S k') (Z.min (2 * d) mx) mx)).
  apply IH.
Qed.

Lemma launches_retry_log (batch : list QueuedJobExecution) (k : nat) (d mx : Z) :
  launches (retry_log batch k d mx) = [].
Proof.
  revert d. induction k as [|k IH]; intros d; [done|].
  destruct k as [|k']; [done|].
  change (retry_log batch (S (S k')) d mx)
    with (ScheduleJobExecutions batch :: RetryDelay d
            :: retry_log batch (S k') (Z.min (2 * d) mx) mx).
  change (launches (ScheduleJobExecutions batch :: RetryDelay d
                      :: retry_log batch (S k') (Z.min (2 * d) mx) mx))
    with (launches (retry_log batch (S k') (Z.min (2 * d) mx) mx)).
  apply IH.
Qed.

Lemma considered_launch_calls (tasks_of : NodeOffers -> list (option Task))
    (l : list NodeOffers) :
  considered (launch_calls tasks_of l) = [].
Proof. unfold considered, launch_calls. induction l as [|no l IH]; [done|]. done. Qed.

(** The scheduling query only adds its own calls to the log. *)
Lemma schedule_queued_log (round : Round) (batch : list QueuedJobExecution) (s : State OM) :
  exists k : nat,
    snd (_schedule_queued_job_executions round batch s)
    = log_calls (retry_log batch k 1000 5000) s.
Proof.
  unfold _schedule_queued_job_executions.
  destruct (retry_spec round batch 5 1000 5000 0 s) as (k & _ & Hrun & _); [lia|].
  exists k. by rewrite Hrun.
Qed.

(** What [_schedule_accepted_tasks] does, by the outcome of the scheduling
    query and of the loop over the scheduled executions. *)
Lemma schedule_accepted_tasks_cases (round : Round) (s : State OM) :
  let node_offers_list := fst (pop_offers_with_accepted_job_exes (_offer_manager s)) in
  let s0 := with_offer_manager (snd (pop_offers_with_accepted_job_exes (_offer_manager s))) s in
  let gathered := fst (foldl gather (∅, []) node_offers_list) in
  exists (k : nat),
    let s1 := log_calls (retry_log (queued_batch node_offers_list) k 1000 5000) s0 in
    (exists tasks_to_launch,
       (forall node_offers, node_offers ∈ node_offers_list ->
          is_Some (tasks_to_launch !! id (node node_offers))) /\
       ((fst (_schedule_queued_job_executions round (queued_batch node_offers_list) s0)
         = Raise OperationalError /\
         _schedule_accepted_tasks round s
         = (Ok (task_total (tasks_in tasks_to_launch) node_offers_list),
            log_calls (launch_calls (tasks_in tasks_to_launch) node_offers_list) s1)) \/
        (exists scheduled,
           fst (_schedule_queued_job_executions round (queued_batch node_offers_list) s0)
           = Ok scheduled /\
           _schedule_accepted_tasks round s
           = (Ok (task_total (tasks_in tasks_to_launch) node_offers_list),
              log_calls (launch_calls (tasks_in tasks_to_launch) node_offers_list)
                (with_job_exes (_job_exe_manager s1 ++ scheduled) s1))))) \/
    (exists scheduled exe,
       fst (_schedule_queued_job_executions round (queued_batch node_offers_list) s0)
       = Ok scheduled /\
       exe ∈ scheduled /\ (node_id exe ∉ node_ids node_offers_list) /\
       _schedule_accepted_tasks round s
       = (Raise KeyError, with_job_exes (_job_exe_manager s1 ++ scheduled) s1)) \/
    (exists e,
       e <> OperationalError /\
       fst (_schedule_queued_job_executions round (queued_batch node_offers_list) s0)
       = Raise e /\
       _schedule_accepted_tasks round s = (Raise e, s1)).
Proof.
  intros nol s0 gathered.
  destruct (schedule_queued_log round (queued_batch nol) s0) as [k Hlog].
  exists k. intros s1.
  rewrite (schedule_accepted_tasks_unfold round s nol
             (snd (pop_offers_with_accepted_job_exes (_offer_manager s))))
    by (unfold nol; by destruct (pop_offers_with_accepted_job_exes (_offer_manager s))).
  fold s0 gathered.
  destruct (_schedule_queued_job_executions round (queued_batch nol) s0)
    as [[scheduled|e] s1'] eqn:Hquery; cbn [fst snd] in *; subst s1'; fold s1.
  - destruct (start_scheduled_cases scheduled gathered)
      as [(ttl & Hrun & Hall & Hdom)|(ttl & exe & Hrun & Hexe & Hnone)]; rewrite Hrun.
    + left. exists ttl. split.
      * intros no Hno. apply Hdom, gathered_dom. unfold node_ids.
        by apply (list_elem_of_fmap_2 (fun no => id (node no))).
      * right. exists scheduled. split; [done|]. apply launch_total.
        intros no Hno. apply Hdom, gathered_dom. unfold node_ids.
        by apply (list_elem_of_fmap_2 (fun no => id (node no))).
    + right. left. exists scheduled, exe. split; [done|]. split; [done|]. split; [|done].
      intros Hin. apply gathered_dom in Hin. fold gathered in Hin.
      rewrite Hnone in Hin. by destruct Hin.
  - destruct (decide (e = OperationalError)) as [->|Hne].
    + left. exists gathered.
      assert (Hdom : forall no, no ∈ nol -> is_Some (gathered !! id (node no))).
      { intros no Hno. apply gathered_dom. unfold node_ids.
        by apply (list_elem_of_fmap_2 (fun no => id (node no))). }
      split; [done|]. left. split; [done|]. by apply launch_total.
    + right. right. exists e. split; [done|]. split; [done|]. by destruct e.
Qed.

Lemma schedule_accepted_tasks_considered (round : Round) (s : State OM) :
  considered (calls (snd (_schedule_accepted_tasks round s))) = considered (calls s).
Proof.
  destruct (schedule_accepted_tasks_cases round s)
    as (k & [(ttl & _ & [[_ ->]|(scheduled & _ & ->)])
            |[(scheduled & exe & _ & _ & _ & ->)|(e & _ & _ & ->)]]);
    cbn [snd log_calls with_job_exes with_offer_manager calls];
    unfold considered; rewrite ?omap_app;
    fold (considered (calls s));
    fold (considered (retry_log
                        (queued_batch (fst (pop_offers_with_accepted_job_exes (_offer_manager s))))
                        k 1000 5000));
    try fold (considered (launch_calls (tasks_in ttl)
                (fst (pop_offers_with_accepted_job_exes (_offer_manager s)))));
    rewrite ?considered_retry_log, ?considered_launch_calls, ?app_nil_r; done.
Qed.

Lemma concat_length_zero {A} (ls : list (list A)) :
  length (concat ls) = 0%nat -> Forall (fun l => l = []) ls.
Proof.
  induction ls as [|l ls IH]; [constructor|]. cbn [concat]. rewrite length_app.
  intros H. constructor; [destruct l; [done|simpl in H; lia]|]. apply IH. lia.
Qed.

End Generic.

(** C3: the scheduling query is tried at most 5 times; every try but the
    last is followed by a wait, the waits start at 1000 ms, double and stay
    within 1000 ms and 5000 ms, and a try is repeated only after a transient
    database error.  When all 5 tries fail with that error,
    [_schedule_accepted_tasks] still returns: the waits were 1000, 2000, 4000
    and 5000 ms, nothing was added to the running job execution manager, and
    [launchTasks] is called once per node offers with exactly the tasks
    started for its accepted running executions, which are also all that is
    counted. *)
Theorem persistence_failure_spec
    {OM : Type} `{!OfferManagerAPI OM}
    (round : Round) (s : State OM) (node_offers_list : list NodeOffers) (om' : OM) :
  pop_offers_with_accepted_job_exes (_offer_manager s) = (node_offers_list, om') ->
  NoDup (node_ids node_offers_list) ->
  (exists k : nat,
     (1 <= k <= 5)%nat /\
     _schedule_queued_job_executions round (queued_batch node_offers_list)
       (with_offer_manager om' s)
     = (schedule_job_executions round (k - 1)%nat (queued_batch node_offers_list),
        log_calls (retry_log (queued_batch node_offers_list) k 1000 5000)
          (with_offer_manager om' s)) /\
     length (schedule_calls (retry_log (queued_batch node_offers_list) k 1000 5000)) = k /\
     length (retry_delays (retry_log (queued_batch node_offers_list) k 1000 5000))
     = (k - 1)%nat /\
     Forall (fun ms => 1000 <= ms <= 5000)
       (retry_delays (retry_log (queued_batch node_offers_list) k 1000 5000)) /\
     (forall i, (i < k - 1)%nat ->
        schedule_job_executions round i (queued_batch node_offers_list)
        = Raise OperationalError) /\
     ((k < 5)%nat ->
        schedule_job_executions round (k - 1)%nat (queued_batch node_offers_list)
        <> Raise OperationalError)) /\
  ((forall attempt, (attempt < 5)%nat ->
      schedule_job_executions round attempt (queued_batch node_offers_list)
      = Raise OperationalError) ->
   retry_delays (retry_log (queued_batch node_offers_list) 5 1000 5000)
   = [1000; 2000; 4000; 5000] /\
   _schedule_accepted_tasks round s
   = (Ok (task_total running_tasks node_offers_list),
      log_calls (retry_log (queued_batch node_offers_list) 5 1000 5000
                   ++ launch_calls running_tasks node_offers_list)
        (with_offer_manager om' s)) /\
   _job_exe_manager (snd (_schedule_accepted_tasks round s)) = _job_exe_manager s /\
   launches (calls (snd (_schedule_accepted_tasks round s)))
   = launches (calls s)
     ++ ((fun node_offers => (offer_ids node_offers, running_tasks node_offers))
           <$> node_offers_list)).
Proof.
  intros Hpop Hnd. split.
  - destruct (retry_spec round (queued_batch node_offers_list) 5 1000 5000 0
                (with_offer_manager om' s)) as (k & Hk & Hrun & Hfail & Hstop); [lia|].
    exists k. destruct (retry_log_delays (queued_batch node_offers_list) k 1000)
      as (Hall & Hlen & Hlen' & _); [lia|].
    split; [done|]. split; [exact Hrun|]. split; [done|]. split; [done|].
    split; [done|]. split; [exact Hfail|exact Hstop].
  - intros Hfail.
    assert (Hrun : _schedule_accepted_tasks round s
                   = (Ok (task_total running_tasks node_offers_list),
                      log_calls (retry_log (queued_batch node_offers_list) 5 1000 5000
                                   ++ launch_calls running_tasks node_offers_list)
                        (with_offer_manager om' s))).
    { rewrite (schedule_accepted_tasks_unfold round s node_offers_list om' Hpop).
      rewrite retry_all_fail by done.
      rewrite (launch_spec running_tasks).
      - by rewrite log_calls_app.
      - intros no Hno. by apply gathered_lookup. }
    split; [reflexivity|]. split; [exact Hrun|]. rewrite Hrun. cbn [snd]. split; [done|].
    unfold log_calls, with_offer_manager. cbn [calls]. unfold launches at 1.
    rewrite !omap_app. fold (launches (calls s)).
    fold (launches (retry_log (queued_batch node_offers_list) 5 1000 5000)).
    fold (launches (launch_calls running_tasks node_offers_list)).
    destruct (retry_log_delays (queued_batch node_offers_list) 5 1000) as (_ & _ & _ & ->); [lia|].
    by rewrite launches_launch_calls.
Qed.

(** C10: when the scheduling query succeeds (and every scheduled execution
    sits on a node of the round's node offers), the launch list of each node
    is the tasks of its accepted running executions followed by the value of
    [start_next_task()] of every execution scheduled on it, [None] included;
    every such value is counted, so the reported total is the number of
    running tasks plus the number of scheduled executions, whereas no [None]
    is ever among the tasks taken from the running path. *)
Theorem scheduled_first_tasks_spec
    {OM : Type} `{!OfferManagerAPI OM}
    (round : Round) (s s1 : State OM) (node_offers_list : list NodeOffers) (om' : OM)
    (scheduled : list RunningJobExecution) :
  pop_offers_with_accepted_job_exes (_offer_manager s) = (node_offers_list, om') ->
  NoDup (node_ids node_offers_list) ->
  _schedule_queued_job_executions round (queued_batch node_offers_list)
    (with_offer_manager om' s) = (Ok scheduled, s1) ->
  (forall exe, exe ∈ scheduled -> node_id exe ∈ node_ids node_offers_list) ->
  _schedule_accepted_tasks round s
  = (Ok (task_total (launch_list scheduled) node_offers_list),
     log_calls (launch_calls (launch_list scheduled) node_offers_list)
       (with_job_exes (_job_exe_manager s1 ++ scheduled) s1)) /\
  task_total (launch_list scheduled) node_offers_list
  = task_total running_tasks node_offers_list + Z.of_nat (length scheduled) /\
  (forall exe, exe ∈ scheduled ->
     exists node_offers, node_offers ∈ node_offers_list /\
       id (node node_offers) = node_id exe /\
       start_next_task exe ∈ launch_list scheduled node_offers) /\
  (forall node_offers, None ∉ running_tasks node_offers).
Proof.
  intros Hpop Hnd Hquery Hnodes.
  assert (Hfind : forall exe, exe ∈ scheduled ->
            exists node_offers, node_offers ∈ node_offers_list /\
                                id (node node_offers) = node_id exe).
  { intros exe Hexe. apply Hnodes in Hexe. unfold node_ids in Hexe.
    apply list_elem_of_fmap in Hexe as (no & Heq & Hno). by exists no. }
  split; [|split; [|split]].
  - rewrite (schedule_accepted_tasks_unfold round s node_offers_list om' Hpop), Hquery.
    destruct (start_scheduled_spec scheduled (fst (foldl gather (∅, []) node_offers_list)))
      as (ttl' & Hstart & Hl).
    + intros exe Hexe. destruct (Hfind exe Hexe) as (no & Hno & <-).
      rewrite gathered_lookup by done. by eexists.
    + rewrite Hstart. rewrite (launch_spec (launch_list scheduled)); [done|].
      intros no Hno. rewrite Hl, gathered_lookup by done. reflexivity.
  - by apply scheduled_on_total.
  - intros exe Hexe. destruct (Hfind exe Hexe) as (no & Hno & Hid).
    exists no. split; [done|]. split; [done|].
    unfold launch_list. apply elem_of_app. right.
    apply list_elem_of_fmap_2. unfold scheduled_on.
    apply list_elem_of_In, filter_In. split; [by apply list_elem_of_In|].
    apply Z.eqb_eq. done.
  - apply running_tasks_all_tasks.
Qed.

(** C5: when the scheduler is paused, [_consider_new_job_exes] offers no
    queued execution and changes nothing.  Otherwise it walks a prefix [pre]
    of the queue and offers to the offer manager exactly the entries of [pre]
    whose job type is in the snapshot and not paused, in queue order, each
    answered by the offer manager as the earlier offers left it; at most
    [MAX_NEW_JOB_EXES] = 500 of them are answered ACCEPTED; entries are left
    unvisited only when that count was reached, and when it is reached the
    walk ends at the very entry whose acceptance reached it. *)
Theorem consider_new_job_exes_spec
    {OM : Type} `{!OfferManagerAPI OM} (round : Round) (s : State OM) :
  MAX_NEW_JOB_EXES = 500 /\
  (scheduler_paused round = true -> _consider_new_job_exes round s = (Ok tt, s)) /\
  (scheduler_paused round = false ->
   exists (offered : list (QueuedJobExecution * Z)) (om : OM) (pre suf : list Queue),
     _consider_new_job_exes round s
     = (Ok tt, log_calls (uncurry ConsiderNewJobExe <$> offered) (with_offer_manager om s)) /\
     get_queue round = pre ++ suf /\
     fst <$> offered = Build_QueuedJobExecution <$> List.filter (eligible (_job_types s)) pre /\
     ask_in_turn (fst <$> offered) (_offer_manager s) = (offered, om) /\
     accepted_count offered <= MAX_NEW_JOB_EXES /\
     (suf <> [] -> accepted_count offered = MAX_NEW_JOB_EXES) /\
     (accepted_count offered = MAX_NEW_JOB_EXES ->
        exists entry, last pre = Some entry /\
                      last offered = Some (Build_QueuedJobExecution entry, ACCEPTED))).
Proof.
  split; [reflexivity|]. unfold _consider_new_job_exes. split.
  - intros ->. reflexivity.
  - intros ->.
    destruct (consider_queue_spec (get_queue round) 0 s)
      as (offered & om & pre & suf & Hrun & Hq & Hoff & Hask & Hle & Hsuf & Hlast); [done|].
    exists offered, om, pre, suf. rewrite Z.add_0_l in *. done.
Qed.

(** C6: a pass of the loop whose [_perform_scheduling] reports zero tasks
    pops all offers, calls [declineOffer] once for every offer id of every
    popped [NodeOffers], in order, then sleeps [DELAY] = 5 seconds, and only
    then does the next pass start; a pass that launched at least one task is
    followed by the next pass at once, with nothing declined, no sleep and
    the offer manager not popped. *)
Theorem run_pass_spec
    {OM : Type} `{!OfferManagerAPI OM}
    (round : Round) (later : list Round) (s s1 : State OM) (num_tasks : Z) :
  _perform_scheduling round s = (Ok num_tasks, s1) ->
  DELAY = 5 /\
  (num_tasks = 0 ->
     run (round :: later) s
     = run later
         (log_calls
            ((DeclineOffer <$> concat (offer_ids <$> fst (pop_all_offers (_offer_manager s1))))
               ++ [Sleep DELAY])
            (with_offer_manager (snd (pop_all_offers (_offer_manager s1))) s1))) /\
  (num_tasks <> 0 -> run (round :: later) s = run later s1).
Proof.
  intros Hsched. split; [reflexivity|].
  assert (Hpass : run (round :: later) s
                  = bind (if num_tasks =? 0 then
                            node_offers_list <- on_offer_manager pop_all_offers ;;
                            decline_offers node_offers_list ;;;
                            emit (Sleep DELAY)
                          else ret tt)
                         (fun _ => run later) s1).
  { cbn [run]. unfold bind at 1, run_once, bind at 1. rewrite Hsched. reflexivity. }
  rewrite Hpass. split.
  - intros ->. cbn [Z.eqb].
    unfold bind at 1, bind at 1, on_offer_manager at 1, bind at 1.
    rewrite decline_offers_spec. unfold emit. by rewrite log_calls_app.
  - intros Hn. apply Z.eqb_neq in Hn. rewrite Hn. reflexivity.
Qed.

Lemma persistence_failure_spec_witness :
  _schedule_accepted_tasks (round_with false db_down) (state_with [offers7] [])
  = (Ok 1,
     {| _offer_manager := {| admits := [3; 5]; with_accepted := []; unused := [] |};
        _job_exe_manager := [running1; running2];
        _job_types := _job_types (state_with [offers7] []);
        calls := [ ScheduleJobExecutions [queued3]; RetryDelay 1000;
                   ScheduleJobExecutions [queued3]; RetryDelay 2000;
                   ScheduleJobExecutions [queued3]; RetryDelay 4000;
                   ScheduleJobExecutions [queued3]; RetryDelay 5000;
                   ScheduleJobExecutions [queued3];
                   LaunchTasks ["o1"; "o2"] [Some t1] ] |}).
Proof.
  assert (Hpop : pop_offers_with_accepted_job_exes (_offer_manager (state_with [offers7] []))
                 = ([offers7], {| admits := [3; 5]; with_accepted := []; unused := [] |}))
    by reflexivity.
  destruct (persistence_failure_spec (round_with false db_down) (state_with [offers7] [])
              [offers7] {| admits := [3; 5]; with_accepted := []; unused := [] |} Hpop)
    as [_ Hfail].
  - apply NoDup_singleton.
  - destruct (Hfail (fun _ _ => eq_refl)) as (_ & Hrun & _). rewrite Hrun. reflexivity.
Defined.

Lemma scheduled_first_tasks_spec_witness :
  _schedule_accepted_tasks (round_with false db_up) (state_with [offers8] [])
  = (Ok 1,
     {| _offer_manager := {| admits := [3; 5]; with_accepted := []; unused := [] |};
        _job_exe_manager := [running1; running2; scheduled3];
        _job_types := _job_types (state_with [offers8] []);
        calls := [ ScheduleJobExecutions [queued3]; LaunchTasks ["o3"] [None] ] |}).
Proof.
  assert (Hpop : pop_offers_with_accepted_job_exes (_offer_manager (state_with [offers8] []))
                 = ([offers8], {| admits := [3; 5]; with_accepted := []; unused := [] |}))
    by reflexivity.
  destruct (scheduled_first_tasks_spec (round_with false db_up) (state_with [offers8] [])
              (log_calls [ScheduleJobExecutions [queued3]]
                 (with_offer_manager {| admits := [3; 5]; with_accepted := []; unused := [] |}
                    (state_with [offers8] [])))
              [offers8] {| admits := [3; 5]; with_accepted := []; unused := [] |}
              [scheduled3] Hpop) as (Hrun & _).
  - apply NoDup_singleton.
  - reflexivity.
  - intros exe Hexe. apply list_elem_of_singleton in Hexe as ->.
    apply list_elem_of_singleton. reflexivity.
  - rewrite Hrun. reflexivity.
Defined.

(** An execution that persistence scheduled on a node outside the round's
    node offers makes the subscript in the [try] block raise [KeyError], which
    the [except OperationalError] clause does not catch. *)
Example scheduled_on_unknown_node :
  fst (_schedule_accepted_tasks (round_with false db_up) (state_with [offers7] []))
  = Raise KeyError.
Proof. vm_compute. reflexivity. Qed.

Lemma consider_new_job_exes_spec_witness :
  _consider_new_job_exes (round_with true db_up) (state_with [] [offers7])
  = (Ok tt, state_with [] [offers7]) /\
  exists (offered : list (QueuedJobExecution * Z)) (om : FixedOffers) (pre suf : list Queue),
    _consider_new_job_exes (round_with false db_up) (state_with [] [offers7])
    = (Ok tt, log_calls (uncurry ConsiderNewJobExe <$> offered)
                (with_offer_manager om (state_with [] [offers7]))) /\
    get_queue (round_with false db_up) = pre ++ suf /\
    fst <$> offered
    = Build_QueuedJobExecution
        <$> List.filter (eligible (_job_types (state_with [] [offers7]))) pre /\
    ask_in_turn (fst <$> offered) (_offer_manager (state_with [] [offers7])) = (offered, om) /\
    accepted_count offered <= MAX_NEW_JOB_EXES /\
    (suf <> [] -> accepted_count offered = MAX_NEW_JOB_EXES) /\
    (accepted_count offered = MAX_NEW_JOB_EXES ->
       exists entry, last pre = Some entry /\
                     last offered = Some (Build_QueuedJobExecution entry, ACCEPTED)).
Proof.
  split.
  - exact (proj1 (proj2 (consider_new_job_exes_spec (round_with true db_up)
                           (state_with [] [offers7]))) eq_refl).
  - exact (proj2 (proj2 (consider_new_job_exes_spec (round_with false db_up)
                           (state_with [] [offers7]))) eq_refl).
Defined.

(** In the sample round the two entries of job type 1 are offered, in queue
    order, and the entries of the paused and of the unknown job type are not. *)
Example consider_new_job_exes_sample :
  calls (snd (_consider_new_job_exes (round_with false db_up) (state_with [] [offers7])))
  = [ ConsiderNewJobExe {| queue := {| queue_id := 3; job_type_id := 1 |} |} 1;
      ConsiderNewJobExe {| queue := {| queue_id := 5; job_type_id := 1 |} |} 1 ].
Proof. vm_compute. reflexivity. Qed.

(** With 600 admissible entries queued, the walk ends with the 500th:
    entries 0 to 499 are offered, entry 500 and the rest are not. *)
Example consider_new_job_exes_cap :
  length (calls (snd (_consider_new_job_exes long_round long_state))) = 500%nat /\
  last (calls (snd (_consider_new_job_exes long_round long_state)))
  = Some (ConsiderNewJobExe {| queue := {| queue_id := 499; job_type_id := 1 |} |} 1).
Proof. split; vm_compute; reflexivity. Qed.

Lemma run_pass_spec_witness :
  run [idle_round] idle_state
  = (Ok tt,
     {| _offer_manager := {| admits := []; with_accepted := []; unused := [] |};
        _job_exe_manager := []; _job_types := ∅;
        calls := [ ScheduleJobExecutions [];
                   DeclineOffer "o1"; DeclineOffer "o2"; DeclineOffer "o3"; Sleep 5 ] |}).
Proof.
  assert (Hsched : _perform_scheduling idle_round idle_state
                   = (Ok 0, snd (_perform_scheduling idle_round idle_state)))
    by (vm_compute; reflexivity).
  destruct (run_pass_spec idle_round [] idle_state
              (snd (_perform_scheduling idle_round idle_state)) 0 Hsched)
    as (_ & Hzero & _).
  rewrite (Hzero eq_refl). vm_compute. reflexivity.
Defined.

(** X5: whenever [_schedule_accepted_tasks] returns, it has called
    [launchTasks] exactly once for every node offers that
    [pop_offers_with_accepted_job_exes] handed out, in that order and with
    that node offers' offer ids, and the number it returns is the total
    number of entries of the task lists it passed; so when it returns 0,
    every one of these calls was made with an empty task list. *)
Theorem launch_accounting
    {OM : Type} `{!OfferManagerAPI OM} (round : Round) (s s' : State OM) (n : Z) :
  _schedule_accepted_tasks round s = (Ok n, s') ->
  exists ext : list Event,
    calls s' = calls s ++ ext /\
    fst <$> launches ext
    = offer_ids <$> fst (pop_offers_with_accepted_job_exes (_offer_manager s)) /\
    n = Z.of_nat (length (concat (snd <$> launches ext))) /\
    _offer_manager s' = snd (pop_offers_with_accepted_job_exes (_offer_manager s)) /\
    (n = 0 -> Forall (fun l => snd l = []) (launches ext)).
Proof.
  intros Hrun.
  set (nol := fst (pop_offers_with_accepted_job_exes (_offer_manager s))).
  set (om' := snd (pop_offers_with_accepted_job_exes (_offer_manager s))).
  assert (Hshape : exists (k : nat) ttl,
            (s' = log_calls (launch_calls (tasks_in ttl) nol)
                    (log_calls (retry_log (queued_batch nol) k 1000 5000)
                       (with_offer_manager om' s))
             \/ exists scheduled,
                 s' = log_calls (launch_calls (tasks_in ttl) nol)
                        (with_job_exes
                           (_job_exe_manager
                              (log_calls (retry_log (queued_batch nol) k 1000 5000)
                                 (with_offer_manager om' s)) ++ scheduled)
                           (log_calls (retry_log (queued_batch nol) k 1000 5000)
                              (with_offer_manager om' s))))
            /\ n = task_total (tasks_in ttl) nol).
  { destruct (schedule_accepted_tasks_cases round s)
      as (k & [(ttl & _ & [[_ Heq]|(scheduled & _ & Heq)])
              |[(scheduled & exe & _ & _ & _ & Heq)|(e & _ & _ & Heq)]]);
      rewrite Heq in Hrun; inversion Hrun; subst.
    - exists k, ttl. split; [left; reflexivity|reflexivity].
    - exists k, ttl. split; [right; by exists scheduled|reflexivity]. }
  destruct Hshape as (k & ttl & Hs' & ->).
  exists (retry_log (queued_batch nol) k 1000 5000 ++ launch_calls (tasks_in ttl) nol).
  assert (Hl : launches (retry_log (queued_batch nol) k 1000 5000
                           ++ launch_calls (tasks_in ttl) nol)
               = (fun no => (offer_ids no, tasks_in ttl no)) <$> nol).
  { unfold launches. rewrite omap_app.
    fold (launches (retry_log (queued_batch nol) k 1000 5000)).
    fold (launches (launch_calls (tasks_in ttl) nol)).
    by rewrite launches_retry_log, launches_launch_calls. }
  rewrite Hl, <- !list_fmap_compose.
  split; [|split; [done|split; [apply task_total_concat|split]]].
  - destruct Hs' as [->|(scheduled & ->)];
      cbn [log_calls with_job_exes with_offer_manager calls]; by rewrite app_assoc.
  - by destruct Hs' as [->|(scheduled & ->)].
  - intros Hzero. rewrite task_total_concat in Hzero.
    assert (Hall : Forall (fun l => l = []) (tasks_in ttl <$> nol))
      by (apply concat_length_zero; lia).
    rewrite Forall_fmap in Hall. rewrite Forall_fmap.
    eapply Forall_impl; [exact Hall|]. done.
Qed.

(** A round in which node 7 accepted one running execution that has no next
    task and the database is down: zero tasks, yet one [launchTasks] call. *)
Lemma launch_accounting_witness :
  exists ext : list Event,
    ext = [ ScheduleJobExecutions []; RetryDelay 1000; ScheduleJobExecutions [];
            RetryDelay 2000; ScheduleJobExecutions []; RetryDelay 4000;
            ScheduleJobExecutions []; RetryDelay 5000; ScheduleJobExecutions [];
            LaunchTasks ["o9"] [] ] /\
    launches ext = [ (["o9"], []) ].
Proof.
  destruct (launch_accounting (round_with false db_down)
              (state_with [ {| node := {| id := 7 |}; offer_ids := ["o9"];
                               get_accepted_running_job_exes := [running2];
                               get_accepted_new_job_exes := [] |} ] [])
              (snd (_schedule_accepted_tasks (round_with false db_down)
                      (state_with [ {| node := {| id := 7 |}; offer_ids := ["o9"];
                                       get_accepted_running_job_exes := [running2];
                                       get_accepted_new_job_exes := [] |} ] [])))
              0) as (ext & Hcalls & _ & _ & _ & Hempty).
  - vm_compute. reflexivity.
  - exists ext. vm_compute in Hcalls. subst ext. split; reflexivity.
Defined.

(** X6: when [_schedule_accepted_tasks] raises, no [launchTasks] call was
    made, although the node offers were popped from the offer manager.  It
    raises [KeyError] when the scheduling query returned an execution whose
    node id is not among the popped node offers, and then the returned
    executions are already in the running job execution manager; otherwise
    it raises the query's own error, which is not a transient database error,
    and the running job execution manager is as before. *)
Theorem failed_scheduling_launches_nothing
    {OM : Type} `{!OfferManagerAPI OM} (round : Round) (s s' : State OM) (e : exn) :
  _schedule_accepted_tasks round s = (Raise e, s') ->
  launches (calls s') = launches (calls s) /\
  _offer_manager s' = snd (pop_offers_with_accepted_job_exes (_offer_manager s)) /\
  ((e = KeyError /\
    exists scheduled exe,
      fst (_schedule_queued_job_executions round
             (queued_batch (fst (pop_offers_with_accepted_job_exes (_offer_manager s))))
             (with_offer_manager
                (snd (pop_offers_with_accepted_job_exes (_offer_manager s))) s))
      = Ok scheduled /\
      exe ∈ scheduled /\
      (node_id exe ∉ node_ids (fst (pop_offers_with_accepted_job_exes (_offer_manager s)))) /\
      _job_exe_manager s' = _job_exe_manager s ++ scheduled) \/
   (e <> OperationalError /\
    fst (_schedule_queued_job_executions round
           (queued_batch (fst (pop_offers_with_accepted_job_exes (_offer_manager s))))
           (with_offer_manager
              (snd (pop_offers_with_accepted_job_exes (_offer_manager s))) s))
    = Raise e /\
    _job_exe_manager s' = _job_exe_manager s)).
Proof.
  intros Hrun.
  assert (Hl : forall k,
            launches (calls s ++ retry_log
                        (queued_batch (fst (pop_offers_with_accepted_job_exes (_offer_manager s))))
                        k 1000 5000)
            = launches (calls s)).
  { intros k. unfold launches. rewrite omap_app.
    fold (launches (calls s)).
    fold (launches (retry_log
                      (queued_batch (fst (pop_offers_with_accepted_job_exes (_offer_manager s))))
                      k 1000 5000)).
    by rewrite launches_retry_log, app_nil_r. }
  destruct (schedule_accepted_tasks_cases round s)
    as (k & [(ttl & _ & [[_ Heq]|(scheduled & _ & Heq)])
            |[(scheduled & exe & Hq & Hexe & Hnot & Heq)|(e' & Hne & Hq & Heq)]]);
    rewrite Heq in Hrun; inversion Hrun; subst;
    cbn [log_calls with_job_exes with_offer_manager calls _offer_manager _job_exe_manager].
  - split; [apply Hl|]. split; [done|]. left. split; [done|].
    exists scheduled, exe. done.
  - split; [apply Hl|]. split; [done|]. right. done.
Qed.

Lemma failed_scheduling_launches_nothing_witness :
  fst (_schedule_accepted_tasks (round_with false db_up) (state_with [offers7] []))
  = Raise KeyError /\
  launches (calls (snd (_schedule_accepted_tasks (round_with false db_up)
                          (state_with [offers7] [])))) = [] /\
  _job_exe_manager (snd (_schedule_accepted_tasks (round_with false db_up)
                           (state_with [offers7] [])))
  = [running1; running2; scheduled3].
Proof.
  assert (Hrun : _schedule_accepted_tasks (round_with false db_up) (state_with [offers7] [])
                 = (Raise KeyError,
                    snd (_schedule_accepted_tasks (round_with false db_up)
                           (state_with [offers7] []))))
    by (vm_compute; reflexivity).
  destruct (failed_scheduling_launches_nothing _ _ _ _ Hrun) as (Hl & _ & _).
  split; [by rewrite Hrun|]. split; [rewrite Hl; reflexivity|].
  vm_compute. reflexivity.
Defined.

(** X7: every pass first refreshes the offer manager's nodes and offers,
    replaces [self._job_types], and lets the offer manager consider the next
    task of every running execution, in the order the running manager holds
    them; only then is the queue looked at.  When the scheduler is paused the
    pass goes from there straight to [_schedule_accepted_tasks], and the offer
    manager is asked about no queued execution in the whole pass. *)
Theorem perform_scheduling_order
    {OM : Type} `{!OfferManagerAPI OM} (round : Round) (s : State OM) :
  _perform_scheduling round s
  = bind (_consider_new_job_exes round) (fun _ => _schedule_accepted_tasks round)
      (prepared round s) /\
  (scheduler_paused round = true ->
     _perform_scheduling round s = _schedule_accepted_tasks round (prepared round s) /\
     considered (calls (snd (_perform_scheduling round s))) = considered (calls s)).
Proof.
  assert (Hprep : _perform_scheduling round s
                  = bind (_consider_new_job_exes round)
                      (fun _ => _schedule_accepted_tasks round) (prepared round s))
    by reflexivity.
  split; [exact Hprep|]. intros Hpaused.
  assert (Hskip : _perform_scheduling round s
                  = _schedule_accepted_tasks round (prepared round s)).
  { rewrite Hprep. unfold bind, _consider_new_job_exes. by rewrite Hpaused. }
  split; [exact Hskip|]. rewrite Hskip, schedule_accepted_tasks_considered. done.
Qed.

Lemma perform_scheduling_order_witness :
  _perform_scheduling (round_with true db_up) (state_with [offers8] [])
  = _schedule_accepted_tasks (round_with true db_up)
      (prepared (round_with true db_up) (state_with [offers8] [])) /\
  considered (calls (snd (_perform_scheduling (round_with true db_up)
                            (state_with [offers8] [])))) = [].
Proof.
  exact (proj2 (perform_scheduling_order (round_with true db_up) (state_with [offers8] []))
           eq_refl).
Defined.

End ScheduleProofs.

(** ** Ingest records *)

Module IngestProofs.
Import Ingest.

(** *** Splitting and joining *)

Lemma split_comma_not_nil (s : string) : split_comma s <> [].
Proof.
  induction s as [|c rest IH]; [done|]. cbn [split_comma].
  destruct (Ascii.eqb c comma); [done|]. by destruct (split_comma rest).
Qed.

Lemma split_comma_no_comma (s : string) :
  has_comma s = false -> split_comma s = [s].
Proof.
  induction s as [|c rest IH]; [done|]. cbn [has_comma split_comma].
  intros H. apply orb_false_iff in H as [Hc Hrest]. rewrite Hc, (IH Hrest). done.
Qed.

Lemma split_comma_app (x rest : string) :
  has_comma x = false ->
  split_comma (x +:+ String comma rest) = x :: split_comma rest.
Proof.
  induction x as [|c x IH]; intros H.
  - simpl. done.
  - cbn [has_comma] in H. apply orb_false_iff in H as [Hc Hx].
    change (String c x +:+ String comma rest) with (String c (x +:+ String comma rest)).
    cbn [split_comma]. rewrite Hc, (IH Hx). done.
Qed.

Lemma split_join (pieces : list string) :
  pieces <> [] -> Forall (fun x => has_comma x = false) pieces ->
  split_comma (join_comma pieces) = pieces.
Proof.
  unfold join_comma. induction pieces as [|x pieces IH]; intros Hne Hall; [done|].
  apply Forall_cons in Hall as [Hx Hall]. destruct pieces as [|y pieces].
  - simpl. by apply split_comma_no_comma.
  - change (String.concat "," (x :: y :: pieces))
      with (x +:+ String comma (String.concat "," (y :: pieces))).
    rewrite split_comma_app by done. f_equal. by apply IH.
Qed.

Lemma split_comma_pieces (s : string) :
  Forall (fun x => has_comma x = false) (split_comma s).
Proof.
  induction s as [|c rest IH]; [by repeat constructor|]. cbn [split_comma].
  destruct (Ascii.eqb c comma) eqn:Hc; [by constructor|].
  destruct (split_comma rest) as [|piece pieces]; [by repeat constructor; simpl; rewrite Hc|].
  apply Forall_cons in IH as [Hp Hps]. constructor; [|done].
  cbn [has_comma]. by rewrite Hc, Hp.
Qed.

Lemma tag_char_not_comma (c : ascii) : tag_char c = true -> Ascii.eqb c comma = false.
Proof.
  intros H. destruct (Ascii.eqb c comma) eqn:Hc; [|done].
  apply Ascii.eqb_eq in Hc. subst c. discriminate.
Qed.

Lemma all_tag_chars_no_comma (s : string) : all_tag_chars s = true -> has_comma s = false.
Proof.
  induction s as [|c rest IH]; [done|]. cbn [all_tag_chars has_comma].
  intros H. apply andb_true_iff in H as [Hc Hrest].
  by rewrite (tag_char_not_comma c Hc), (IH Hrest).
Qed.

Lemma valid_tag_shape (tag : string) :
  VALID_TAG_PATTERN_match tag = true -> has_comma tag = false /\ tag <> EmptyString.
Proof.
  destruct tag as [|c rest]; [done|]. unfold VALID_TAG_PATTERN_match.
  intros H. split; [by apply all_tag_chars_no_comma|done].
Qed.

(** *** Tag sets *)

Lemma get_data_type_tags_no_comma (self : Ingest) (x : string) :
  x ∈ get_data_type_tags self -> has_comma x = false.
Proof.
  unfold get_data_type_tags. destruct (data_type self) as [|c rest] eqn:Hdt.
  - intros H. by apply not_elem_of_empty in H.
  - rewrite elem_of_list_to_set. intros H.
    pose proof (split_comma_pieces (String c rest)) as Hall.
    rewrite Forall_forall in Hall. by apply Hall.
Qed.

(** The tag set survives being written as a comma-joined string and read
    back, whenever no tag holds a comma and one tag is not empty. *)
Lemma tags_round_trip (iter : gset string -> list string) (self : Ingest)
    (tags : gset string) (tag : string) :
  set_iteration iter ->
  (forall x, x ∈ tags -> has_comma x = false) ->
  tag ∈ tags -> tag <> EmptyString ->
  get_data_type_tags (_set_data_type_tags iter self tags) = tags.
Proof.
  intros Hiter Hfree Htag Hne.
  assert (Hin : forall x, x ∈ iter tags <-> x ∈ tags).
  { intros x. by rewrite (Hiter tags), elem_of_elements. }
  assert (Hnil : iter tags <> []).
  { intros Hnil. apply Hin in Htag. rewrite Hnil in Htag. by apply elem_of_nil in Htag. }
  assert (Hall : Forall (fun x => has_comma x = false) (iter tags)).
  { apply Forall_forall. intros x Hx. apply Hfree. by apply Hin. }
  pose proof (split_join (iter tags) Hnil Hall) as Hsplit.
  unfold get_data_type_tags, _set_data_type_tags. cbn [with_data_type data_type].
  destruct (join_comma (iter tags)) as [|c rest] eqn:Hjoin.
  - exfalso. cbn [split_comma] in Hsplit.
    apply Hin in Htag. rewrite <- Hsplit in Htag.
    apply list_elem_of_singleton in Htag. done.
  - rewrite Hsplit. apply set_eq. intros x. by rewrite elem_of_list_to_set.
Qed.

(** C8: for a valid tag [t], [add_data_type_tag(t)] returns, the tags read
    back afterwards are the former tags and [t], so they contain [t]; adding
    [t] once more returns too and leaves the tag set as it was - whatever
    order the tags are joined in, the set read back from the comma-joined
    string is the set that was written. *)
Theorem add_data_type_tag_spec
    (iter1 iter2 : gset string -> list string) (self : Ingest) (t : string) :
  set_iteration iter1 -> set_iteration iter2 ->
  VALID_TAG_PATTERN_match t = true ->
  exists self1 self2 : Ingest,
    add_data_type_tag iter1 self t = (Ok tt, self1) /\
    t ∈ get_data_type_tags self1 /\
    get_data_type_tags self1 = get_data_type_tags self ∪ {[ t ]} /\
    add_data_type_tag iter2 self1 t = (Ok tt, self2) /\
    get_data_type_tags self2 = get_data_type_tags self1.
Proof.
  intros Hiter1 Hiter2 Hvalid.
  destruct (valid_tag_shape t Hvalid) as [Hfree Hne].
  assert (Hfirst : get_data_type_tags
                     (_set_data_type_tags iter1 self (get_data_type_tags self ∪ {[ t ]}))
                   = get_data_type_tags self ∪ {[ t ]}).
  { apply (tags_round_trip iter1 self _ t Hiter1);
      [|apply elem_of_union; right; by apply elem_of_singleton|done].
    intros x Hx. apply elem_of_union in Hx as [Hx|Hx].
    - by apply (get_data_type_tags_no_comma self).
    - apply elem_of_singleton in Hx. by subst x. }
  eexists _, _. unfold add_data_type_tag. rewrite Hvalid. cbn [negb].
  split; [reflexivity|]. rewrite Hfirst.
  split; [apply elem_of_union; right; by apply elem_of_singleton|].
  split; [reflexivity|]. split; [reflexivity|].
  rewrite <- (assoc_L (∪)), (idemp_L (∪)).
  apply (tags_round_trip iter2 _ _ t Hiter2);
    [|apply elem_of_union; right; by apply elem_of_singleton|done].
  intros x Hx. apply elem_of_union in Hx as [Hx|Hx].
  - by apply (get_data_type_tags_no_comma self).
  - apply elem_of_singleton in Hx. by subst x.
Qed.

Lemma add_data_type_tag_spec_witness :
  exists self1 self2 : Ingest,
    add_data_type_tag elements tagged "band_4" = (Ok tt, self1) /\
    "band_4" ∈ get_data_type_tags self1 /\
    get_data_type_tags self1 = get_data_type_tags tagged ∪ {[ "band_4" ]} /\
    add_data_type_tag elements self1 "band_4" = (Ok tt, self2) /\
    get_data_type_tags self2 = get_data_type_tags self1.
Proof.
  apply add_data_type_tag_spec.
  - intros tags. reflexivity.
  - intros tags. reflexivity.
  - reflexivity.
Defined.

Lemma add_valid_tag (iter : gset string -> list string) (self : Ingest) (t : string) :
  set_iteration iter -> VALID_TAG_PATTERN_match t = true ->
  exists self', add_data_type_tag iter self t = (Ok tt, self') /\
    get_data_type_tags self' = get_data_type_tags self ∪ {[ t ]}.
Proof.
  intros Hiter Hvalid. destruct (valid_tag_shape t Hvalid) as [Hfree Hne].
  eexists. unfold add_data_type_tag. rewrite Hvalid. cbn [negb]. split; [reflexivity|].
  apply (tags_round_trip iter self _ t Hiter);
    [|apply elem_of_union; right; by apply elem_of_singleton|done].
  intros x Hx. apply elem_of_union in Hx as [Hx|Hx].
  - by apply (get_data_type_tags_no_comma self).
  - apply elem_of_singleton in Hx. by subst x.
Qed.

(** X8: a tag set written by [_set_data_type_tags] is read back unchanged by
    [get_data_type_tags] exactly when no tag of it holds a comma and it is
    not the set of the empty string alone: the empty set and every set of
    comma-free tags with a non-empty member survive, a tag with a comma comes
    back in pieces, and the set of the empty tag comes back empty. *)
Theorem tags_round_trip_iff
    (iter : gset string -> list string) (self : Ingest) (tags : gset string) :
  set_iteration iter ->
  get_data_type_tags (_set_data_type_tags iter self tags) = tags <->
  (forall x, x ∈ tags -> has_comma x = false) /\ tags <> {[ EmptyString ]}.
Proof.
  intros Hiter. split.
  - intros Hback. split.
    + intros x Hx. rewrite <- Hback in Hx. by apply get_data_type_tags_no_comma in Hx.
    + intros ->. revert Hback.
      unfold get_data_type_tags, _set_data_type_tags. cbn [with_data_type data_type].
      pose proof (Hiter {[ EmptyString ]}) as Hperm.
      rewrite elements_singleton in Hperm. apply Permutation_singleton_r in Hperm.
      rewrite Hperm. cbn. intros Hempty.
      assert (Hin : EmptyString ∈ (∅ : gset string))
        by (rewrite Hempty; by apply elem_of_singleton).
      by apply not_elem_of_empty in Hin.
  - intros [Hfree Hnot].
    destruct (set_choose_or_empty (tags ∖ {[ EmptyString ]})) as [[x Hx]|Hnone].
    + apply elem_of_difference in Hx as [Hx Hne].
      apply (tags_round_trip iter self tags x Hiter Hfree Hx).
      intros ->. apply Hne. by apply elem_of_singleton.
    + assert (Hall : forall x, x ∈ tags -> x = EmptyString).
      { intros x Hx. destruct (decide (x = EmptyString)) as [|Hne]; [done|].
        exfalso. apply (not_elem_of_empty (C := gset string) x). rewrite <- Hnone.
        apply elem_of_difference. split; [done|]. by rewrite elem_of_singleton. }
      assert (Hempty : tags = ∅).
      { apply set_eq. intros x. split; [|intros Hx; by apply not_elem_of_empty in Hx].
        intros Hx. exfalso. apply Hnot. apply set_eq. intros y.
        rewrite elem_of_singleton. split; [apply Hall|].
        intros ->. by rewrite <- (Hall x Hx). }
      subst tags. unfold get_data_type_tags, _set_data_type_tags.
      cbn [with_data_type data_type].
      pose proof (Hiter ∅) as Hperm. rewrite elements_empty in Hperm.
      apply Permutation_nil_r in Hperm. rewrite Hperm. reflexivity.
Qed.

Lemma tags_round_trip_iff_witness :
  get_data_type_tags (_set_data_type_tags elements tagged {[ "a,b"%string ]})
  = {[ "a,b"%string ]} <->
  (forall x : string, x ∈ ({[ "a,b"%string ]} : gset string) -> has_comma x = false) /\
  ({[ "a,b"%string ]} : gset string) <> {[ EmptyString ]}.
Proof.
  apply (tags_round_trip_iff elements tagged {[ "a,b"%string ]}).
  intros tags. reflexivity.
Defined.

(** X9: adding tags one after the other with [add_data_type_tag] returns as
    long as the tags are valid, and the tag set is then the former set and
    all the tags added, whatever their order and repetitions; the first
    invalid tag raises [InvalidDataTypeTag], and the tags added before it
    stay: the ingest then holds the former set and the valid tags that came
    first. *)
Theorem add_each_spec
    (iter : gset string -> list string) (self : Ingest) (good : list string) :
  set_iteration iter ->
  Forall (fun t => VALID_TAG_PATTERN_match t = true) good ->
  (exists self',
     add_each iter self good = (Ok tt, self') /\
     get_data_type_tags self' = get_data_type_tags self ∪ list_to_set good) /\
  (forall bad rest, VALID_TAG_PATTERN_match bad = false ->
     exists self',
       add_each iter self (good ++ bad :: rest) = (Raise InvalidDataTypeTag, self') /\
       get_data_type_tags self' = get_data_type_tags self ∪ list_to_set good).
Proof.
  intros Hiter Hgood. revert self.
  induction Hgood as [|t good Ht Hgood IH]; intros self.
  - split.
    + exists self. split; [reflexivity|]. by rewrite list_to_set_nil, (right_id_L ∅ (∪)).
    + intros bad rest Hbad. exists self. cbn [app add_each]. unfold add_data_type_tag.
      rewrite Hbad. cbn [negb]. split; [reflexivity|].
      by rewrite list_to_set_nil, (right_id_L ∅ (∪)).
  - destruct (add_valid_tag iter self t Hiter Ht) as (self1 & Hadd & Hget).
    destruct (IH self1) as [(self' & Hrun & Htags) Hfail].
    rewrite list_to_set_cons, (assoc_L (∪)), <- Hget. split.
    + exists self'. cbn [add_each]. by rewrite Hadd.
    + intros bad rest Hbad. destruct (Hfail bad rest Hbad) as (self2 & Hrun2 & Htags2).
      exists self2. rewrite <- app_comm_cons. cbn [add_each]. by rewrite Hadd.
Qed.

Lemma add_each_spec_witness :
  (exists self',
     add_each elements tagged ["band_4"; "level 1"; "band_4"]%string = (Ok tt, self') /\
     get_data_type_tags self'
     = get_data_type_tags tagged ∪ list_to_set ["band_4"; "level 1"; "band_4"]%string) /\
  (forall bad rest, VALID_TAG_PATTERN_match bad = false ->
     exists self',
       add_each elements tagged (["band_4"; "level 1"; "band_4"]%string ++ bad :: rest)
       = (Raise InvalidDataTypeTag, self') /\
       get_data_type_tags self'
       = get_data_type_tags tagged ∪ list_to_set ["band_4"; "level 1"; "band_4"]%string).
Proof.
  apply (add_each_spec elements tagged ["band_4"; "level 1"; "band_4"]%string).
  - intros tags. reflexivity.
  - repeat constructor.
Defined.

(** *** Filling the hourly values *)



(** *** Counting rows *)

Lemma count_rows_cons (p : Ingest -> bool) (i : Ingest) (rows : list Ingest) :
  count_rows p (i :: rows) = (if p i then 1 else 0) + count_rows p rows.
Proof. unfold count_rows. cbn [List.filter]. destruct (p i); cbn [length]; lia. Qed.

Lemma sum_sizes_cons (p : Ingest -> bool) (i : Ingest) (rows : list Ingest) :
  sum_sizes p (i :: rows) = (if p i then default 0 (file_size i) else 0) + sum_sizes p rows.
Proof. unfold sum_sizes. cbn [foldr]. destruct (p i); lia. Qed.

Lemma tally_perm (p : Ingest -> bool) (rows rows' : list Ingest) :
  rows ≡ₚ rows' ->
  count_rows p rows = count_rows p rows' /\ sum_sizes p rows = sum_sizes p rows'.
Proof.
  induction 1 as [|i l l' _ [IHc IHs]|i j l|l1 l2 l3 _ [IHc1 IHs1] _ [IHc2 IHs2]].
  - done.
  - rewrite !count_rows_cons, !sum_sizes_cons. split; lia.
  - rewrite !count_rows_cons, !sum_sizes_cons. split; lia.
  - split; congruence.
Qed.

Lemma tally_filter (p q : Ingest -> bool) (rows : list Ingest) :
  count_rows p (List.filter q rows) = count_rows (fun i => q i && p i) rows /\
  sum_sizes p (List.filter q rows) = sum_sizes (fun i => q i && p i) rows.
Proof.
  induction rows as [|i rows [IHc IHs]]; [done|]. cbn [List.filter].
  rewrite (count_rows_cons (fun i => q i && p i)), (sum_sizes_cons (fun i => q i && p i)).
  destruct (q i); cbn [andb].
  - rewrite count_rows_cons, sum_sizes_cons. split; lia.
  - split; lia.
Qed.



(** *** Grouping by strike and hour *)

Lemma update_status_spec (st st' : IngestStatus)
    (time_slots time_slots' : gmap time_slot IngestCounts) (i : Ingest) (d : datetime) :
  _update_status st time_slots i d = Ok (st', time_slots') ->
  well_slotted time_slots ->
  exists bytes, file_size i = Some bytes /\
    strike st' = strike st /\ values st' = values st /\
    well_slotted time_slots' /\
    forall slot,
      slot_files time_slots' slot
      = slot_files time_slots slot
        + (if bool_decide (slot_at d (hour d) = slot) then 1 else 0) /\
      slot_size time_slots' slot
      = slot_size time_slots slot
        + (if bool_decide (slot_at d (hour d) = slot) then bytes else 0).
Proof.
  unfold _update_status. intros Hup Hwell.
  destruct (file_size i) as [bytes|]; [|done].
  set (slot0 := slot_at d (hour d)) in *.
  exists bytes. split; [done|].
  destruct (time_slots !! slot0) as [c|] eqn:Hc.
  - rewrite Hc in Hup. cbn [default] in Hup. inversion Hup; subst st' time_slots'; clear Hup.
    cbn [strike values]. split; [done|]. split; [done|]. split.
    + intros slot c'. destruct (decide (slot0 = slot)) as [<-|Hne].
      * rewrite lookup_insert_eq. intros [= <-]. cbn [time]. by apply Hwell.
      * rewrite lookup_insert_ne by done. apply Hwell.
    + intros slot. unfold slot_files, slot_size. case_bool_decide as Hs.
      * subst slot. rewrite lookup_insert_eq, Hc. done.
      * rewrite lookup_insert_ne by done. split; lia.
  - rewrite lookup_insert_eq in Hup. cbn [default] in Hup.
    inversion Hup; subst st' time_slots'; clear Hup.
    cbn [strike values]. split; [done|]. split; [done|]. split.
    + intros slot c'. destruct (decide (slot0 = slot)) as [<-|Hne].
      * rewrite lookup_insert_eq. intros [= <-]. done.
      * rewrite !lookup_insert_ne by done. apply Hwell.
    + intros slot. unfold slot_files, slot_size. case_bool_decide as Hs.
      * subst slot. rewrite lookup_insert_eq, Hc. done.
      * rewrite !lookup_insert_ne by done. split; lia.
Qed.

Lemma group_ingest_spec (use_ingest_time : bool) (maps maps' : Groups) (i : Ingest) :
  group_ingest use_ingest_time maps i = Ok maps' ->
  groups_inv maps ->
  groups_inv maps' /\
  forall k time_slots', snd maps' !! k = Some time_slots' ->
    exists time_slots, snd maps !! k = Some time_slots /\
      forall slot,
        slot_files time_slots' slot
        = slot_files time_slots slot + (if falls_in use_ingest_time k slot i then 1 else 0) /\
        slot_size time_slots' slot
        = slot_size time_slots slot
          + (if falls_in use_ingest_time k slot i then default 0 (file_size i) else 0).
Proof.
  intros Hstep Hinv.
  assert (Hsame : forall p : Ingest -> Z -> time_slot -> bool,
             (forall k slot, is_Some (snd maps !! k) -> p i k slot = false) ->
             groups_inv maps /\
             forall k time_slots', snd maps !! k = Some time_slots' ->
               exists time_slots, snd maps !! k = Some time_slots /\
                 forall slot,
                   slot_files time_slots' slot
                   = slot_files time_slots slot + (if p i k slot then 1 else 0) /\
                   slot_size time_slots' slot
                   = slot_size time_slots slot
                     + (if p i k slot then default 0 (file_size i) else 0)).
  { intros p Hp. split; [done|]. intros k ts Hk. exists ts. split; [done|].
    intros slot. rewrite Hp by (by eexists). split; lia. }
  unfold group_ingest in Hstep. unfold falls_in.
  destruct Hinv as (Hstrikes & Hdom & Hwell).
  destruct (ingest_strike i) as [k0|] eqn:Hk0.
  2:{ inversion Hstep; subst maps'. apply (Hsame (fun _ _ _ => false)). done. }
  destruct (fst maps !! k0) as [st|] eqn:Hst.
  2:{ inversion Hstep; subst maps'.
      apply (Hsame (fun i k slot =>
                      match dated use_ingest_time i with
                      | Some d => (k0 =? k) && bool_decide (slot_at d (hour d) = slot)
                      | None => false
                      end)).
      intros k slot Hk. destruct (dated use_ingest_time i); [|done].
      destruct (decide (k0 = k)) as [->|Hne].
      - apply Hdom in Hk. rewrite Hst in Hk. by destruct Hk.
      - apply Z.eqb_neq in Hne. by rewrite Hne. }
  destruct (dated use_ingest_time i) as [d|] eqn:Hd.
  2:{ inversion Hstep; subst maps'. apply (Hsame (fun _ _ _ => false)). done. }
  destruct (snd maps !! k0) as [ts0|] eqn:Hts0; [|done].
  destruct (_update_status st ts0 i d) as [[st' ts0']|e] eqn:Hup; [|done].
  inversion Hstep; subst maps'; clear Hstep. cbn [fst snd].
  destruct (update_status_spec st st' ts0 ts0' i d Hup (Hwell k0 ts0 Hts0))
    as (bytes & Hbytes & Hs' & Hv' & Hwell' & Hcounts).
  destruct (Hstrikes k0 st Hst) as [Hsk Hsv].
  split; [split; [|split]|]; cbn [fst snd].
  - intros k st1. destruct (decide (k0 = k)) as [<-|Hne].
    + rewrite lookup_insert_eq. intros [= <-]. split; congruence.
    + rewrite lookup_insert_ne by done. apply Hstrikes.
  - intros k. destruct (decide (k0 = k)) as [<-|Hne].
    + rewrite !lookup_insert_eq. split; intros _; by eexists.
    + rewrite !lookup_insert_ne by done. apply Hdom.
  - intros k ts. destruct (decide (k0 = k)) as [<-|Hne].
    + rewrite lookup_insert_eq. intros [= <-]. done.
    + rewrite lookup_insert_ne by done. apply Hwell.
  - intros k ts'. destruct (decide (k0 = k)) as [<-|Hne].
    + rewrite lookup_insert_eq. intros [= <-]. exists ts0. split; [done|].
      intros slot. rewrite Z.eqb_refl, Hbytes. cbn [andb default]. apply Hcounts.
    + rewrite lookup_insert_ne by done. intros Hts'. exists ts'. split; [done|].
      intros slot. apply Z.eqb_neq in Hne. rewrite Hne. cbn [andb]. split; lia.
Qed.

Lemma group_ingests_spec (use_ingest_time : bool) (ingests : list Ingest)
    (maps maps' : Groups) :
  group_ingests use_ingest_time maps ingests = Ok maps' ->
  groups_inv maps ->
  groups_inv maps' /\
  forall k time_slots', snd maps' !! k = Some time_slots' ->
    exists time_slots, snd maps !! k = Some time_slots /\
      forall slot,
        slot_files time_slots' slot
        = slot_files time_slots slot + count_rows (falls_in use_ingest_time k slot) ingests /\
        slot_size time_slots' slot
        = slot_size time_slots slot + sum_sizes (falls_in use_ingest_time k slot) ingests.
Proof.
  revert maps. induction ingests as [|i rest IH]; intros maps Hrun Hinv.
  - inversion Hrun; subst maps'. split; [done|]. intros k ts Hk. exists ts.
    split; [done|]. intros slot. unfold count_rows, sum_sizes. simpl. split; lia.
  - cbn [group_ingests] in Hrun.
    destruct (group_ingest use_ingest_time maps i) as [maps1|e] eqn:Hstep; [|done].
    destruct (group_ingest_spec _ _ _ _ Hstep Hinv) as [Hinv1 Hcount1].
    destruct (IH maps1 Hrun Hinv1) as [Hinv' Hcount'].
    split; [done|]. intros k ts' Hk'.
    destruct (Hcount' k ts' Hk') as (ts1 & Hk1 & Hc').
    destruct (Hcount1 k ts1 Hk1) as (ts & Hk & Hc1).
    exists ts. split; [done|]. intros slot.
    destruct (Hc' slot) as [-> ->]. destruct (Hc1 slot) as [-> ->].
    rewrite count_rows_cons, sum_sizes_cons. split; lia.
Qed.

Lemma init_groups_spec (strikes : list Z) :
  groups_inv (init_groups strikes) /\
  forall k time_slots, snd (init_groups strikes) !! k = Some time_slots ->
    time_slots = ∅ /\ k ∈ strikes.
Proof.
  unfold init_groups.
  assert (H : forall (l : list Z) (maps : Groups) (P : Z -> Prop),
            groups_inv maps ->
            (forall k ts, snd maps !! k = Some ts -> ts = ∅ /\ P k) ->
            let maps' := foldl (fun maps strike_id =>
                                  (<[strike_id := IngestStatus_init strike_id]> (fst maps),
                                   <[strike_id := ∅]> (snd maps))) maps l in
            groups_inv maps' /\
            forall k ts, snd maps' !! k = Some ts -> ts = ∅ /\ (P k \/ k ∈ l)).
  { induction l as [|a l IH]; intros maps P Hinv Hempty; cbn [foldl].
    - split; [done|]. intros k ts Hk. destruct (Hempty k ts Hk). auto.
    - destruct Hinv as (Hstrikes & Hdom & Hwell).
      destruct (IH (<[a := IngestStatus_init a]> (fst maps), <[a := ∅]> (snd maps))
                  (fun k => P k \/ k = a)) as [Hinv' Hempty'].
      + split; [|split]; cbn [fst snd].
        * intros k st. destruct (decide (a = k)) as [<-|Hne].
          -- rewrite lookup_insert_eq. intros [= <-]. done.
          -- rewrite lookup_insert_ne by done. apply Hstrikes.
        * intros k. destruct (decide (a = k)) as [<-|Hne].
          -- rewrite !lookup_insert_eq. split; intros _; by eexists.
          -- rewrite !lookup_insert_ne by done. apply Hdom.
        * intros k ts. destruct (decide (a = k)) as [<-|Hne].
          -- rewrite lookup_insert_eq. intros [= <-]. intros slot c Hc.
             by rewrite lookup_empty in Hc.
          -- rewrite lookup_insert_ne by done. apply Hwell.
      + cbn [snd]. intros k ts. destruct (decide (a = k)) as [<-|Hne].
        * rewrite lookup_insert_eq. intros [= <-]. auto.
        * rewrite lookup_insert_ne by done. intros Hk.
          destruct (Hempty k ts Hk). auto.
      + split; [done|]. intros k ts Hk. destruct (Hempty' k ts Hk) as [-> Hor].
        split; [done|]. rewrite elem_of_cons. destruct Hor as [[?|?]|?]; auto. }
  destruct (H strikes (∅, ∅) (fun _ => False)) as [Hinv Hempty].
  - split; [|split]; cbn [fst snd].
    + intros k st Hk. by rewrite lookup_empty in Hk.
    + intros k. rewrite !lookup_empty. done.
    + intros k ts Hk. by rewrite lookup_empty in Hk.
  - cbn [snd]. intros k ts Hk. by rewrite lookup_empty in Hk.
  - split; [done|]. intros k ts Hk. destruct (Hempty k ts Hk) as [-> [[]|?]]. done.
Qed.

Lemma pair_groups_spec (entries : list (Z * IngestStatus))
    (slot_map : gmap Z (gmap time_slot IngestCounts))
    (pairs : list (IngestStatus * gmap time_slot IngestCounts)) :
  pair_groups entries slot_map = Ok pairs ->
  forall group, group ∈ pairs ->
    exists k, (k, fst group) ∈ entries /\ slot_map !! k = Some (snd group).
Proof.
  revert pairs. induction entries as [|[k st] rest IH]; intros pairs Hrun group Hin.
  - inversion Hrun; subst pairs. by apply elem_of_nil in Hin.
  - cbn [pair_groups] in Hrun. destruct (slot_map !! k) as [ts|] eqn:Hk; [|done].
    destruct (pair_groups rest slot_map) as [pairs'|e]; [|done].
    inversion Hrun; subst pairs; clear Hrun.
    apply elem_of_cons in Hin as [->|Hin].
    + exists k. cbn [fst snd]. split; [apply list_elem_of_here|done].
    + destruct (IH pairs' eq_refl group Hin) as (k' & Hk' & Hs').
      exists k'. split; [by apply list_elem_of_further|done].
Qed.


(** The sample table gives one status with 48 hourly values: two files of
    30 bytes in hour 5 of the first day, one of 7 bytes in hour 0 of the
    second, nothing from the transferring row, zeros elsewhere. *)
Example get_status_sample :
  (fun st => (strike st, total_files st, total_size st, length (values st),
              (fun c => (files c, size c)) <$> values st !! 5%nat,
              (fun c => (files c, size c)) <$> values st !! 6%nat,
              (fun c => (files c, size c)) <$> values st !! 24%nat)) <$> sample_statuses
  = [ (1, 3, 37, 48%nat, Some (2, 30), Some (0, 0), Some (1, 7)) ].
Proof. vm_compute. reflexivity. Qed.

(** *** The query returns *)

Lemma group_ingest_returns (use_ingest_time : bool) (maps : Groups) (i : Ingest) :
  groups_inv maps -> is_Some (file_size i) ->
  exists maps', group_ingest use_ingest_time maps i = Ok maps'.
Proof.
  intros (_ & Hdom & _) [bytes Hbytes]. unfold group_ingest.
  destruct (ingest_strike i) as [k0|]; [|by eexists].
  destruct (fst maps !! k0) as [st|] eqn:Hst; [|by eexists].
  destruct (dated use_ingest_time i) as [d|]; [|by eexists].
  destruct (snd maps !! k0) as [ts|] eqn:Hts.
  - unfold _update_status. rewrite Hbytes. by eexists.
  - exfalso. assert (Hs : is_Some (fst maps !! k0)) by (by eexists).
    apply Hdom in Hs. rewrite Hts in Hs. by destruct Hs.
Qed.

Lemma group_ingests_returns (use_ingest_time : bool) (ingests : list Ingest) (maps : Groups) :
  groups_inv maps -> Forall (fun i => is_Some (file_size i)) ingests ->
  exists maps', group_ingests use_ingest_time maps ingests = Ok maps'.
Proof.
  revert maps. induction ingests as [|i rest IH]; intros maps Hinv Hall; [by eexists|].
  apply Forall_cons in Hall as [Hi Hall]. cbn [group_ingests].
  destruct (group_ingest_returns use_ingest_time maps i Hinv Hi) as [maps1 Hstep].
  rewrite Hstep. apply IH; [|done].
  by destruct (group_ingest_spec _ _ _ _ Hstep Hinv).
Qed.

Lemma pair_groups_returns (entries : list (Z * IngestStatus))
    (slot_map : gmap Z (gmap time_slot IngestCounts)) :
  (forall k st, (k, st) ∈ entries -> is_Some (slot_map !! k)) ->
  exists pairs, pair_groups entries slot_map = Ok pairs.
Proof.
  induction entries as [|[k st] rest IH]; intros Hdom; [by eexists|].
  cbn [pair_groups]. destruct (Hdom k st) as [ts ->]; [apply list_elem_of_here|].
  destruct IH as [pairs ->]; [|by eexists].
  intros k' st' Hin. apply (Hdom k' st'). by apply list_elem_of_further.
Qed.

Lemma status_ingests_rows (db : Database) (started ended : option datetime)
    (use_ingest_time : bool) (i : Ingest) :
  i ∈ status_ingests db started ended use_ingest_time ->
  i ∈ ingest_rows db /\ is_ingested i = true.
Proof.
  unfold status_ingests, order_by. rewrite merge_sort_Permutation.
  intros Hin.
  assert (Hbase : i ∈ List.filter is_ingested (ingest_rows db)).
  { assert (Hsub : forall (p : Ingest -> bool) (l : list Ingest),
                     i ∈ List.filter p l -> i ∈ l).
    { intros p l H. apply list_elem_of_In, filter_In in H as [H _].
      by apply list_elem_of_In. }
    destruct started as [s|], ended as [e|].
    - by apply Hsub, Hsub in Hin.
    - by apply Hsub in Hin.
    - by apply Hsub in Hin.
    - done. }
  apply list_elem_of_In, filter_In in Hbase as [Hrow Hing].
  split; [by apply list_elem_of_In|done].
Qed.

(** [get_status] returns a list of statuses whenever every INGESTED row of
    the table carries a file size. *)
Lemma get_status_returns (db : Database) (started ended : option datetime)
    (use_ingest_time : bool) :
  (forall i, i ∈ ingest_rows db -> is_ingested i = true -> is_Some (file_size i)) ->
  exists statuses, get_status db started ended use_ingest_time = Ok statuses.
Proof.
  intros Hsizes. unfold get_status, _group_by_time.
  destruct (init_groups_spec (strike_rows db)) as [Hinv0 _].
  destruct (group_ingests_returns use_ingest_time
              (status_ingests db started ended use_ingest_time)
              (init_groups (strike_rows db)) Hinv0) as [maps Hrun].
  { apply Forall_forall. intros i Hi.
    apply status_ingests_rows in Hi as [Hrow Hing]. by apply Hsizes. }
  rewrite Hrun.
  destruct (group_ingests_spec _ _ _ _ Hrun Hinv0) as [(_ & Hdom & _) _].
  destruct (pair_groups_returns (map_to_list (fst maps)) (snd maps)) as [pairs ->].
  - intros k st Hin. apply elem_of_map_to_list in Hin. apply Hdom. by eexists.
  - by eexists.
Qed.


(** *** Order of dates *)

Lemma dt_leb_spec (a b : datetime) : dt_leb a b = true <-> instant a <= instant b.
Proof. unfold dt_leb. apply Z.leb_le. Qed.

Lemma dt_leb_refl (d : datetime) : dt_leb d d = true.
Proof. apply dt_leb_spec. lia. Qed.

Lemma dt_leb_trans (a b c : datetime) :
  dt_leb a b = true -> dt_leb b c = true -> dt_leb a c = true.
Proof. rewrite !dt_leb_spec. lia. Qed.

Lemma dt_leb_total (a b : datetime) : dt_leb a b = false -> dt_leb b a = true.
Proof.
  intros Hab. apply not_true_iff_false in Hab. rewrite dt_leb_spec in Hab.
  apply dt_leb_spec. lia.
Qed.

Lemma latest_of_known (recent : option datetime) : latest_of (known_date recent) recent.
Proof.
  destruct recent as [d|]; [|done]. split; [apply list_elem_of_here|].
  repeat constructor. apply dt_leb_refl.
Qed.

(** The step [if not most_recent or dated > most_recent: most_recent = dated]. *)
Lemma latest_of_step (recent : option datetime) (d : datetime) :
  latest_of (known_date recent ++ [d])
    match recent with
    | None => Some d
    | Some r => if dt_gtb d r then Some d else Some r
    end.
Proof.
  destruct recent as [r|]; cbn [known_date app].
  - unfold dt_gtb. destruct (dt_leb d r) eqn:Hdr; cbn [negb latest_of].
    + split; [apply list_elem_of_here|]. repeat constructor; [apply dt_leb_refl|done].
    + split; [apply list_elem_of_further, list_elem_of_here|].
      repeat constructor; [by apply dt_leb_total|apply dt_leb_refl].
  - split; [apply list_elem_of_here|]. repeat constructor. apply dt_leb_refl.
Qed.

Lemma latest_of_compose (r0 r1 r2 : option datetime) (ds1 ds2 : list datetime) :
  latest_of (known_date r0 ++ ds1) r1 ->
  latest_of (known_date r1 ++ ds2) r2 ->
  latest_of (known_date r0 ++ ds1 ++ ds2) r2.
Proof.
  intros H1 H2. destruct r2 as [x|]; cbn [latest_of] in *.
  - destruct H2 as [Hx Hall2]. destruct r1 as [y|]; cbn [latest_of known_date] in *.
    + destruct H1 as [Hy Hall1]. apply Forall_cons in Hall2 as [Hyx Hall2]. split.
      * rewrite app_assoc. apply elem_of_cons in Hx as [->|Hx].
        -- apply elem_of_app. by left.
        -- apply elem_of_app. by right.
      * rewrite app_assoc. apply Forall_app. split; [|done].
        eapply Forall_impl; [exact Hall1|]. intros d Hd. by apply (dt_leb_trans d y x).
    + apply app_eq_nil in H1 as [-> ->]. cbn [app] in *. done.
  - apply app_eq_nil in H2 as [Hr1 ->]. destruct r1 as [y|]; [done|].
    cbn [latest_of] in H1. by rewrite app_nil_r.
Qed.

Lemma latest_of_perm (ds ds' : list datetime) (recent : option datetime) :
  ds ≡ₚ ds' -> latest_of ds recent -> latest_of ds' recent.
Proof.
  intros Hperm. destruct recent as [d|]; cbn [latest_of].
  - by rewrite Hperm.
  - intros ->. by apply Permutation_nil_l in Hperm.
Qed.

(** *** The rows of the query *)

Lemma filter_and (p q : Ingest -> bool) (l : list Ingest) :
  List.filter q (List.filter p l) = List.filter (fun i => p i && q i) l.
Proof.
  induction l as [|i l IH]; [done|]. cbn [List.filter].
  destruct (p i); cbn [List.filter andb]; [destruct (q i)|]; by rewrite IH.
Qed.

(** The query set of [get_status] holds the rows that pass its filters, in
    the order of the date column. *)
Lemma status_ingests_perm (db : Database) (started ended : option datetime)
    (use_ingest_time : bool) :
  status_ingests db started ended use_ingest_time
  ≡ₚ List.filter (in_range use_ingest_time started ended) (ingest_rows db).
Proof.
  unfold status_ingests, order_by. rewrite merge_sort_Permutation.
  destruct started as [s|], ended as [e|]; rewrite ?filter_and;
    match goal with
    | |- List.filter ?f ?l ≡ₚ List.filter ?g ?l =>
        rewrite (List.filter_ext f g); [reflexivity|]
    end;
    intros i; unfold in_range; by rewrite ?andb_true_r, ?andb_assoc.
Qed.

Lemma status_ingests_elem (db : Database) (started ended : option datetime)
    (use_ingest_time : bool) (i : Ingest) :
  i ∈ status_ingests db started ended use_ingest_time <->
  i ∈ ingest_rows db /\ in_range use_ingest_time started ended i = true.
Proof.
  rewrite status_ingests_perm, !list_elem_of_In. apply filter_In.
Qed.

Lemma tally_in_range (db : Database) (started ended : option datetime)
    (use_ingest_time : bool) (p : Ingest -> bool) :
  count_rows p (status_ingests db started ended use_ingest_time)
  = count_rows (fun i => in_range use_ingest_time started ended i && p i) (ingest_rows db) /\
  sum_sizes p (status_ingests db started ended use_ingest_time)
  = sum_sizes (fun i => in_range use_ingest_time started ended i && p i) (ingest_rows db).
Proof.
  destruct (tally_perm p _ _ (status_ingests_perm db started ended use_ingest_time))
    as [-> ->].
  apply tally_filter.
Qed.

Lemma dates_of_perm (use_ingest_time : bool) (k : Z) (rows rows' : list Ingest) :
  rows ≡ₚ rows' -> dates_of use_ingest_time k rows ≡ₚ dates_of use_ingest_time k rows'.
Proof. intros Hperm. unfold dates_of. by rewrite Hperm. Qed.

Lemma dates_of_cons (use_ingest_time : bool) (k : Z) (i : Ingest) (rows : list Ingest) :
  dates_of use_ingest_time k (i :: rows)
  = (if belongs use_ingest_time k i then known_date (dated use_ingest_time i) else [])
    ++ dates_of use_ingest_time k rows.
Proof.
  unfold dates_of. simpl.
  destruct (belongs use_ingest_time k i); [|done].
  by destruct (dated use_ingest_time i).
Qed.

(** *** The summaries *)

Lemma init_groups_fst (strikes : list Z) (k : Z) :
  fst (init_groups strikes) !! k
  = if decide (k ∈ strikes) then Some (IngestStatus_init k) else None.
Proof.
  unfold init_groups.
  assert (H : forall (l : list Z) (maps : Groups),
            fst (foldl (fun maps strike_id =>
                          (<[strike_id := IngestStatus_init strike_id]> (fst maps),
                           <[strike_id := ∅]> (snd maps))) maps l) !! k
            = if decide (k ∈ l) then Some (IngestStatus_init k) else fst maps !! k).
  { induction l as [|a l IH]; intros maps; cbn [foldl].
    - destruct (decide (k ∈ [])) as [Hin|_]; [by apply elem_of_nil in Hin|done].
    - rewrite IH. cbn [fst].
      destruct (decide (k ∈ l)) as [Hl|Hl].
      + rewrite decide_True by (by apply list_elem_of_further). done.
      + destruct (decide (a = k)) as [->|Hne].
        * rewrite lookup_insert_eq, decide_True by apply list_elem_of_here. done.
        * rewrite lookup_insert_ne by done.
          rewrite decide_False; [done|].
          intros Hin. apply elem_of_cons in Hin as [->|Hin]; done. }
  rewrite H. cbn [fst]. rewrite lookup_empty. done.
Qed.

(** What one pass of the loop does to the summary of strike [k]. *)
Lemma group_ingest_summary (use_ingest_time : bool) (maps maps' : Groups) (i : Ingest)
    (k : Z) :
  group_ingest use_ingest_time maps i = Ok maps' ->
  option_Forall2
    (fun st st' =>
       strike st' = strike st /\ values st' = values st /\
       total_files st' = total_files st + (if belongs use_ingest_time k i then 1 else 0) /\
       total_size st'
       = total_size st
         + (if belongs use_ingest_time k i then default 0 (file_size i) else 0) /\
       (belongs use_ingest_time k i = true -> is_Some (file_size i)) /\
       latest_of (known_date (most_recent st) ++ dates_of use_ingest_time k [i])
         (most_recent st'))
    (fst maps !! k) (fst maps' !! k).
Proof.
  intros Hstep.
  assert (Hsame : belongs use_ingest_time k i = false \/ fst maps !! k = None ->
            option_Forall2
              (fun st st' =>
                 strike st' = strike st /\ values st' = values st /\
                 total_files st'
                 = total_files st + (if belongs use_ingest_time k i then 1 else 0) /\
                 total_size st'
                 = total_size st
                   + (if belongs use_ingest_time k i then default 0 (file_size i) else 0) /\
                 (belongs use_ingest_time k i = true -> is_Some (file_size i)) /\
                 latest_of (known_date (most_recent st) ++ dates_of use_ingest_time k [i])
                   (most_recent st'))
              (fst maps !! k) (fst maps !! k)).
  { intros Hor. destruct (fst maps !! k) as [st|] eqn:Hst; [|constructor].
    destruct Hor as [Hb|?]; [|done]. constructor. rewrite dates_of_cons, Hb.
    change (dates_of use_ingest_time k []) with (@nil datetime). rewrite !app_nil_r.
    repeat split; try lia; try done; apply latest_of_known. }
  unfold group_ingest in Hstep. unfold belongs in *.
  destruct (ingest_strike i) as [k0|] eqn:Hk0.
  2:{ inversion Hstep; subst maps'. apply Hsame. by left. }
  destruct (fst maps !! k0) as [st|] eqn:Hst.
  2:{ inversion Hstep; subst maps'. apply Hsame.
      destruct (dated use_ingest_time i); [|by left].
      destruct (decide (k0 = k)) as [->|Hne]; [by right|].
      left. by apply Z.eqb_neq. }
  destruct (dated use_ingest_time i) as [d|] eqn:Hd.
  2:{ inversion Hstep; subst maps'. apply Hsame. by left. }
  destruct (snd maps !! k0) as [ts0|] eqn:Hts0; [|done].
  unfold _update_status in Hstep.
  destruct (file_size i) as [bytes|] eqn:Hbytes; [|done].
  inversion Hstep; subst maps'; clear Hstep. cbn [fst].
  destruct (decide (k0 = k)) as [->|Hne].
  - rewrite lookup_insert_eq, Hst. constructor. cbn [strike values total_files total_size
      most_recent]. rewrite Z.eqb_refl. cbn [default from_option]. unfold id.
    repeat split; try done.
    rewrite dates_of_cons. unfold belongs. rewrite Hk0, Hd, Z.eqb_refl.
    change (dates_of use_ingest_time k []) with (@nil datetime).
    cbn [known_date]. rewrite app_nil_r. apply latest_of_step.
  - rewrite lookup_insert_ne by done. apply Hsame. left. by apply Z.eqb_neq.
Qed.

Lemma group_ingests_summary (use_ingest_time : bool) (ingests : list Ingest)
    (maps maps' : Groups) (k : Z) :
  group_ingests use_ingest_time maps ingests = Ok maps' ->
  option_Forall2
    (fun st st' =>
       strike st' = strike st /\ values st' = values st /\
       total_files st' = total_files st + count_rows (belongs use_ingest_time k) ingests /\
       total_size st' = total_size st + sum_sizes (belongs use_ingest_time k) ingests /\
       (forall i, i ∈ ingests -> belongs use_ingest_time k i = true ->
                  is_Some (file_size i)) /\
       latest_of (known_date (most_recent st) ++ dates_of use_ingest_time k ingests)
         (most_recent st'))
    (fst maps !! k) (fst maps' !! k).
Proof.
  revert maps. induction ingests as [|i rest IH]; intros maps Hrun.
  - inversion Hrun; subst maps'. destruct (fst maps !! k) as [st|]; constructor.
    unfold count_rows, sum_sizes, dates_of. cbn. rewrite app_nil_r.
    repeat split; try lia; [|apply latest_of_known].
    intros i Hi. by apply elem_of_nil in Hi.
  - cbn [group_ingests] in Hrun.
    destruct (group_ingest use_ingest_time maps i) as [maps1|e] eqn:Hstep; [|done].
    pose proof (group_ingest_summary use_ingest_time maps maps1 i k Hstep) as H1.
    pose proof (IH maps1 Hrun) as H2.
    destruct H1 as [st st1 (Hs1 & Hv1 & Hf1 & Hz1 & Hsz1 & Hr1)|];
      inversion H2 as [st1' st' (Hs2 & Hv2 & Hf2 & Hz2 & Hsz2 & Hr2) Heq1 Heq2|];
      subst; constructor.
    rewrite count_rows_cons, sum_sizes_cons.
    split; [congruence|]. split; [congruence|]. split; [lia|]. split; [lia|]. split.
    + intros j Hj Hb. apply elem_of_cons in Hj as [->|Hj]; [by apply Hsz1|by apply Hsz2].
    + rewrite dates_of_cons. rewrite dates_of_cons in Hr1.
      change (dates_of use_ingest_time k []) with (@nil datetime) in Hr1.
      rewrite app_nil_r in Hr1.
      by apply (latest_of_compose _ (most_recent st1)).
Qed.

Lemma pair_groups_fst (entries : list (Z * IngestStatus))
    (slot_map : gmap Z (gmap time_slot IngestCounts))
    (pairs : list (IngestStatus * gmap time_slot IngestCounts)) :
  pair_groups entries slot_map = Ok pairs -> fst <$> pairs = snd <$> entries.
Proof.
  revert pairs. induction entries as [|[k st] rest IH]; intros pairs Hrun.
  - by inversion Hrun.
  - cbn [pair_groups] in Hrun. destruct (slot_map !! k) as [ts|]; [|done].
    destruct (pair_groups rest slot_map) as [pairs'|e]; [|done].
    inversion Hrun; subst pairs. rewrite !fmap_cons. cbn [fst snd]. f_equal. by apply IH.
Qed.

(** What [get_status] returns, taken apart: each status is the filled
    summary of one strike of the table, whose summary and slots come out of
    the loop over the query set. *)
Lemma get_status_unfold (db : Database) (started ended : option datetime)
    (use_ingest_time : bool) (statuses : list IngestStatus) :
  get_status db started ended use_ingest_time = Ok statuses ->
  exists maps groups,
    group_ingests use_ingest_time (init_groups (strike_rows db))
      (status_ingests db started ended use_ingest_time) = Ok maps /\
    pair_groups (map_to_list (fst maps)) (snd maps) = Ok groups /\
    statuses
    = (fun group => _fill_status (today db) (fst group) (snd group) started ended)
        <$> groups.
Proof.
  unfold get_status, _group_by_time. intros Hrun.
  destruct (group_ingests use_ingest_time (init_groups (strike_rows db))
              (status_ingests db started ended use_ingest_time)) as [maps|e]; [|done].
  destruct (pair_groups (map_to_list (fst maps)) (snd maps)) as [groups|e] eqn:Hg; [|done].
  exists maps, groups. by inversion Hrun.
Qed.

(** The summaries after the loop over [ingests], started from the mapping
    of all strikes. *)
Lemma summary_after (use_ingest_time : bool) (strikes : list Z) (ingests : list Ingest)
    (maps : Groups) (k : Z) :
  group_ingests use_ingest_time (init_groups strikes) ingests = Ok maps ->
  (k ∈ strikes <-> is_Some (fst maps !! k)) /\
  forall st, fst maps !! k = Some st ->
    strike st = k /\ values st = [] /\
    total_files st = count_rows (belongs use_ingest_time k) ingests /\
    total_size st = sum_sizes (belongs use_ingest_time k) ingests /\
    (forall i, i ∈ ingests -> belongs use_ingest_time k i = true -> is_Some (file_size i)) /\
    latest_of (dates_of use_ingest_time k ingests) (most_recent st).
Proof.
  intros Hrun.
  pose proof (group_ingests_summary use_ingest_time ingests _ _ k Hrun) as Hsum.
  rewrite init_groups_fst in Hsum.
  destruct (decide (k ∈ strikes)) as [Hk|Hk].
  - inversion Hsum as [st0 st (Hs & Hv & Hf & Hz & Hsz & Hr) Heq0 Heq|]; subst.
    split; [split; [by eexists|done]|].
    intros st' [= <-]. cbn [IngestStatus_init known_date strike values total_files
      total_size most_recent app] in *.
    repeat split; try done; lia.
  - inversion Hsum as [|Heq0 Heq]. split; [|done].
    split; [done|]. intros [st Hst]. done.
Qed.

Lemma group_ingest_raises (use_ingest_time : bool) (maps : Groups) (i : Ingest) (e : exn) :
  groups_inv maps -> group_ingest use_ingest_time maps i = Raise e ->
  e = TypeError /\
  exists k, is_Some (fst maps !! k) /\ belongs use_ingest_time k i = true /\
            file_size i = None.
Proof.
  intros (_ & Hdom & _). unfold group_ingest, belongs.
  destruct (ingest_strike i) as [k0|]; [|done].
  destruct (fst maps !! k0) as [st|] eqn:Hst; [|done].
  destruct (dated use_ingest_time i) as [d|]; [|done].
  destruct (snd maps !! k0) as [ts|] eqn:Hts.
  - unfold _update_status. destruct (file_size i) as [bytes|]; [done|].
    intros [= <-]. split; [done|]. exists k0. rewrite Hst, Z.eqb_refl. by split; [eexists|].
  - exfalso. assert (Hs : is_Some (fst maps !! k0)) by (by eexists).
    apply Hdom in Hs. rewrite Hts in Hs. by destruct Hs.
Qed.

Lemma group_ingests_raises (use_ingest_time : bool) (ingests : list Ingest)
    (maps : Groups) (e : exn) :
  groups_inv maps -> group_ingests use_ingest_time maps ingests = Raise e ->
  e = TypeError /\
  exists i k, i ∈ ingests /\ is_Some (fst maps !! k) /\
              belongs use_ingest_time k i = true /\ file_size i = None.
Proof.
  revert maps. induction ingests as [|i rest IH]; intros maps Hinv Hrun; [done|].
  cbn [group_ingests] in Hrun.
  destruct (group_ingest use_ingest_time maps i) as [maps1|e1] eqn:Hstep.
  - destruct (group_ingest_spec _ _ _ _ Hstep Hinv) as [Hinv1 _].
    destruct (IH maps1 Hinv1 Hrun) as (-> & j & k & Hj & Hk & Hb & Hsize).
    split; [done|]. exists j, k. split; [by apply list_elem_of_further|].
    split; [|done].
    pose proof (group_ingest_summary use_ingest_time maps maps1 i k Hstep) as Hsum.
    destruct Hk as [st1 Hk]. rewrite Hk in Hsum. inversion Hsum. by eexists.
  - inversion Hrun; subst e1.
    destruct (group_ingest_raises _ _ _ _ Hinv Hstep) as (-> & k & Hk & Hb & Hsize).
    split; [done|]. exists i, k. split; [apply list_elem_of_here|done].
Qed.


(** Each returned status is the filled summary of one strike. *)
Lemma get_status_elem (db : Database) (started ended : option datetime)
    (use_ingest_time : bool) (statuses : list IngestStatus) (st : IngestStatus) :
  get_status db started ended use_ingest_time = Ok statuses -> st ∈ statuses ->
  exists maps k st0 time_slots,
    group_ingests use_ingest_time (init_groups (strike_rows db))
      (status_ingests db started ended use_ingest_time) = Ok maps /\
    fst maps !! k = Some st0 /\ snd maps !! k = Some time_slots /\
    well_slotted time_slots /\
    st = _fill_status (today db) st0 time_slots started ended.
Proof.
  intros Hrun Hst.
  destruct (get_status_unfold _ _ _ _ _ Hrun) as (maps & groups & Hgi & Hg & ->).
  apply list_elem_of_fmap in Hst as ([st0 ts] & -> & Hin). cbn [fst snd].
  destruct (pair_groups_spec _ _ _ Hg _ Hin) as (k & Hk & Hts). cbn [fst snd] in Hk, Hts.
  apply elem_of_map_to_list in Hk.
  destruct (init_groups_spec (strike_rows db)) as [Hinv0 _].
  destruct (group_ingests_spec _ _ _ _ Hgi Hinv0) as [(_ & _ & Hwell) _].
  exists maps, k, st0, ts. repeat split; try done. by apply (Hwell k).
Qed.




(** Bounds half an hour apart late on day 100 in the zone -05:00, which is
    day 101 in UTC: the values are the 24 hours of day 100, the date the
    bounds show, and the file ingested at 04:15 UTC of day 101 is counted in
    the summary although its slot, hour 4 of day 101, is not among them. *)
Example get_status_zone_sample :
  (fun st => (strike st, total_files st, total_size st, length (values st),
              time <$> values st !! 0%nat, time <$> last (values st),
              List.filter (fun c => negb (files c =? 0)) (values st)))
    <$> match get_status late_db (Some late_started) (Some late_ended) false with
        | Ok statuses => statuses
        | Raise _ => []
        end
  = [ (1, 1, 5, 24%nat, Some (100, 0), Some (100, 23), []) ].
Proof. vm_compute. reflexivity. Qed.

(** X10: when [get_status] returns, it returns one [IngestStatus] for each
    strike of the table and no other: no strike appears twice, and a strike
    without any ingest in the range has its status all the same. *)
Theorem one_status_per_strike (db : Database) (started ended : option datetime)
    (use_ingest_time : bool) (statuses : list IngestStatus) :
  get_status db started ended use_ingest_time = Ok statuses ->
  NoDup (strike <$> statuses) /\
  (forall k, k ∈ strike <$> statuses <-> k ∈ strike_rows db).
Proof.
  intros Hrun.
  destruct (get_status_unfold _ _ _ _ _ Hrun) as (maps & groups & Hgi & Hg & ->).
  assert (Hkeys : strike <$> ((fun group =>
                     _fill_status (today db) (fst group) (snd group) started ended)
                                <$> groups)
                  = fst <$> map_to_list (fst maps)).
  { rewrite <- list_fmap_compose.
    transitivity (strike <$> (fst <$> groups)).
    { rewrite <- list_fmap_compose. apply Forall_fmap_ext_1, Forall_forall. done. }
    rewrite (pair_groups_fst _ _ _ Hg), <- list_fmap_compose.
    apply Forall_fmap_ext_1, Forall_forall. intros [k st] Hin. cbn [compose fst snd].
    apply elem_of_map_to_list in Hin.
    destruct (summary_after _ _ _ _ k Hgi) as [_ Hsum].
    by destruct (Hsum st Hin) as (-> & _). }
  rewrite Hkeys. split; [apply NoDup_fst_map_to_list|].
  intros k. destruct (summary_after _ _ _ _ k Hgi) as [-> _].
  rewrite list_elem_of_fmap. split.
  - intros ([k' st] & -> & Hin). apply elem_of_map_to_list in Hin. by eexists.
  - intros [st Hst]. exists (k, st). split; [done|]. by apply elem_of_map_to_list.
Qed.

Lemma one_status_per_strike_witness :
  NoDup (strike <$> sample_statuses) /\
  (forall k, k ∈ strike <$> sample_statuses <-> k ∈ strike_rows sample_db).
Proof.
  apply (one_status_per_strike sample_db (Some sample_started) (Some sample_ended) false).
  vm_compute. reflexivity.
Defined.

(** X11: the summary of every returned [IngestStatus]: its [files] is the
    number, and its [size] the total size, of the rows of its strike that
    pass the filters of the query and carry the date the query groups by; its
    [most_recent] is the latest of the dates of these rows, and is missing
    when there is no such row. *)
Theorem get_status_totals (db : Database) (started ended : option datetime)
    (use_ingest_time : bool) (statuses : list IngestStatus) :
  get_status db started ended use_ingest_time = Ok statuses ->
  forall st, st ∈ statuses ->
    total_files st
    = count_rows (fun i => in_range use_ingest_time started ended i
                           && belongs use_ingest_time (strike st) i) (ingest_rows db) /\
    total_size st
    = sum_sizes (fun i => in_range use_ingest_time started ended i
                          && belongs use_ingest_time (strike st) i) (ingest_rows db) /\
    latest_of (dates_of use_ingest_time (strike st)
                 (List.filter (in_range use_ingest_time started ended) (ingest_rows db)))
      (most_recent st).
Proof.
  intros Hrun st Hst.
  destruct (get_status_elem _ _ _ _ _ _ Hrun Hst)
    as (maps & k & st0 & ts & Hgi & Hk & _ & _ & ->).
  destruct (summary_after _ _ _ _ k Hgi) as [_ Hsum].
  destruct (Hsum st0 Hk) as (Hs & _ & Hf & Hz & _ & Hr).
  unfold _fill_status. cbn [strike total_files total_size most_recent].
  rewrite Hs, Hf, Hz.
  destruct (tally_in_range db started ended use_ingest_time (belongs use_ingest_time k))
    as [-> ->].
  split; [done|]. split; [done|].
  eapply latest_of_perm; [|exact Hr].
  apply dates_of_perm, status_ingests_perm.
Qed.

Lemma get_status_totals_witness :
  get_status sample_db (Some sample_started) (Some sample_ended) false = Ok sample_statuses /\
  forall st, st ∈ sample_statuses ->
    total_files st
    = count_rows (fun i => in_range false (Some sample_started) (Some sample_ended) i
                           && belongs false (strike st) i) (ingest_rows sample_db) /\
    total_size st
    = sum_sizes (fun i => in_range false (Some sample_started) (Some sample_ended) i
                          && belongs false (strike st) i) (ingest_rows sample_db) /\
    latest_of (dates_of false (strike st)
                 (List.filter (in_range false (Some sample_started) (Some sample_ended))
                    (ingest_rows sample_db)))
      (most_recent st).
Proof.
  split; [vm_compute; reflexivity|].
  apply (get_status_totals sample_db (Some sample_started) (Some sample_ended) false).
  vm_compute. reflexivity.
Defined.

(** X12: [get_status] raises nothing but [TypeError], and raises it exactly
    when some row that passes the filters of the query, points to a strike
    of the table and carries the date the query groups by has no file size
    ([file_size] is a nullable column, and [None] cannot be added to the
    counts). *)
Theorem get_status_raises (db : Database) (started ended : option datetime)
    (use_ingest_time : bool) (e : exn) :
  get_status db started ended use_ingest_time = Raise e <->
  e = TypeError /\
  exists i k,
    i ∈ ingest_rows db /\ in_range use_ingest_time started ended i = true /\
    k ∈ strike_rows db /\ belongs use_ingest_time k i = true /\ file_size i = None.
Proof.
  assert (Hfwd : forall e',
            get_status db started ended use_ingest_time = Raise e' ->
            e' = TypeError /\
            exists i k,
              i ∈ ingest_rows db /\ in_range use_ingest_time started ended i = true /\
              k ∈ strike_rows db /\ belongs use_ingest_time k i = true /\
              file_size i = None).
  { intros e'. unfold get_status, _group_by_time. intros Hrun.
    destruct (init_groups_spec (strike_rows db)) as [Hinv0 _].
    destruct (group_ingests use_ingest_time (init_groups (strike_rows db))
                (status_ingests db started ended use_ingest_time)) as [maps|e1] eqn:Hgi.
    - exfalso.
      destruct (group_ingests_spec _ _ _ _ Hgi Hinv0) as [(_ & Hdom & _) _].
      destruct (pair_groups_returns (map_to_list (fst maps)) (snd maps)) as [pairs Hp].
      + intros k st Hin. apply elem_of_map_to_list in Hin. apply Hdom. by eexists.
      + by rewrite Hp in Hrun.
    - inversion Hrun; subst e1.
      destruct (group_ingests_raises _ _ _ _ Hinv0 Hgi) as (-> & i & k & Hi & Hk & Hb & Hsz).
      split; [done|]. exists i, k. apply status_ingests_elem in Hi as [Hrow Hin].
      rewrite init_groups_fst in Hk.
      destruct (decide (k ∈ strike_rows db)) as [Hmem|_]; [done|by destruct Hk]. }
  split; [apply Hfwd|].
  intros (-> & i & k & Hrow & Hin & Hk & Hb & Hsz).
  destruct (get_status db started ended use_ingest_time) as [statuses|e'] eqn:Hrun.
  - exfalso.
    destruct (get_status_unfold _ _ _ _ _ Hrun) as (maps & groups & Hgi & _ & _).
    destruct (summary_after _ _ _ _ k Hgi) as [Hdom Hsum].
    apply Hdom in Hk as [st Hst].
    destruct (Hsum st Hst) as (_ & _ & _ & _ & Hsizes & _).
    destruct (Hsizes i) as [bytes Hbytes]; [by apply status_ingests_elem|done|].
    congruence.
  - by destruct (Hfwd e' eq_refl) as [-> _].
Qed.



End IngestProofs.
